(** * go-xeger: random strings from a regular expression

    A shallow embedding of [xeger.go] (the generator with an injectable
    [Source] and a configurable limit) and of the earlier version of the
    package (package-global source, constant limit), with the properties of
    the generation algorithm proved about them.

    Conventions of the embedding.
    - Go's [int] and [int64] are 64-bit two's complement integers and [rune]
      is [int32]; they are carried by [Z] and every arithmetic operation of
      the source is followed by the wrap-around of its type.
    - A Go string is UTF-8; every string the generator builds is valid UTF-8,
      and it is represented by the sequence of code points it encodes.  The
      conversion [string(rune)] maps a value that is not a Unicode scalar
      value (a surrogate half, or a value outside [0, 0x10FFFF]) to U+FFFD,
      as the Go language defines it.
    - A run-time panic of Go is a value of type [panic].
    - The random source is an object with hidden state; generation threads
      that state explicitly.  The threaded state also carries [calls], a
      ghost counter of the invocations of [generateFromRegexp]. *)

From Stdlib Require Import ZArith List Lia Bool String Ascii.
Import ListNotations.
Local Open Scope Z_scope.

(** ** Machine integers *)

Module GoInt.

(** Two's complement wrap-around to [w] bits. *)
Definition wrap (w z : Z) : Z := (z + 2 ^ (w - 1)) mod 2 ^ w - 2 ^ (w - 1).

Definition int (z : Z) : Z := wrap 64 z.
Definition int64 (z : Z) : Z := wrap 64 z.
Definition int32 (z : Z) : Z := wrap 32 z.

Definition max_int : Z := 2 ^ 63 - 1.
Definition min_int : Z := - 2 ^ 63.

Definition is_int (z : Z) : Prop := min_int <= z <= max_int.
Definition is_int32 (z : Z) : Prop := - 2 ^ 31 <= z < 2 ^ 31.

End GoInt.
Import GoInt.

(** ** Runes and strings *)

Definition rune := Z.

(** A Go string, as the sequence of the code points it encodes. *)
Definition gostring := list rune.

Definition RuneError : rune := 65533.
Definition MaxRune : rune := 1114111.
Definition surrogateMin : rune := 55296.
Definition surrogateMax : rune := 57343.

(** The values [string(rune)] encodes as themselves. *)
Definition valid_rune (r : rune) : bool :=
  (0 <=? r) && (r <=? MaxRune) && negb ((surrogateMin <=? r) && (r <=? surrogateMax)).

(** [string(rune(r))] *)
Definition string_of_rune (r : rune) : gostring :=
  [if valid_rune r then r else RuneError].

(** [string(rs)] for [rs : []rune] *)
Definition string_of_runes (rs : list rune) : gostring :=
  flat_map string_of_rune rs.

(** The code points of an ASCII constant. *)
Definition codes (s : string) : gostring :=
  map (fun c => Z.of_nat (nat_of_ascii c)) (list_ascii_of_string s).
Arguments codes s%_string.

(** ** Character set tables *)

Definition ascii_lowercase : gostring := codes "abcdefghijklmnopqrstuvwxyz".
Definition ascii_uppercase : gostring := codes "ABCDEFGHIJKLMNOPQRSTUVWXYZ".
Definition ascii_letters : gostring := ascii_lowercase ++ ascii_uppercase.
Definition digits : gostring := codes "0123456789".
(* the double quote is code 34 *)
Definition punctuation : gostring :=
  codes " !" ++ [34] ++ codes "#$%&'()*+,-./:;<=>?@[\]^_`{|}~".
Definition control : gostring := [9; 11; 12; 13].
Definition newline : gostring := [10].
Definition printable : gostring :=
  digits ++ ascii_letters ++ punctuation ++ control ++ newline.
Definition printableNotNL : gostring :=
  digits ++ ascii_letters ++ punctuation ++ control.

Definition defaultLimit : Z := 10.

(** [len(s)] *)
Definition len {A} (l : list A) : Z := Z.of_nat (List.length l).

(** ** The syntax tree of [regexp/syntax] *)

Module syntax.

Inductive Op : Type :=
| OpNoMatch | OpEmptyMatch | OpLiteral | OpCharClass | OpAnyCharNotNL
| OpAnyChar | OpBeginLine | OpEndLine | OpBeginText | OpEndText
| OpWordBoundary | OpNoWordBoundary | OpCapture | OpStar | OpPlus
| OpQuest | OpRepeat | OpConcat | OpAlternate.

(** The fields of [syntax.Regexp] the generator reads: [Op], [Rune],
    [Min], [Max] and [Sub] ([Flags], [Cap] and [Name] are never read). *)
Unset Elimination Schemes.
Inductive Regexp : Type :=
  MkRegexp (op : Op) (rune : list rune) (min max : Z) (sub : list Regexp).
Set Elimination Schemes.

Definition ReOp (re : Regexp) : Op := let 'MkRegexp o _ _ _ _ := re in o.
Definition Rune (re : Regexp) : list rune := let 'MkRegexp _ r _ _ _ := re in r.
Definition Min (re : Regexp) : Z := let 'MkRegexp _ _ m _ _ := re in m.
Definition Max (re : Regexp) : Z := let 'MkRegexp _ _ _ m _ := re in m.
Definition Sub (re : Regexp) : list Regexp := let 'MkRegexp _ _ _ _ s := re in s.

(** Induction over the tree, with the hypothesis on every child. *)
Section RegexpInd.
Variable P : Regexp -> Prop.
Hypothesis step : forall o r mn mx sub,
    Forall P sub -> P (MkRegexp o r mn mx sub).

Fixpoint Regexp_nested_ind (re : Regexp) : P re :=
  match re with
  | MkRegexp o r mn mx sub =>
      step o r mn mx sub
        ((fix all (l : list Regexp) : Forall P l :=
            match l with
            | [] => Forall_nil P
            | c :: l' => Forall_cons c (Regexp_nested_ind c) (all l')
            end) sub)
  end.
End RegexpInd.

End syntax.
Import syntax.

(** ** The random source *)

(** [Source]: an object with one method, [Int63], which returns the next
    value and moves the object to its next state. *)
Class Source (S : Type) : Type := { Int63 : S -> Z * S }.

(** The contract of the interface: values in the range [0, 1<<63). *)
Definition Int63_contract (S : Type) `{Source S} : Prop :=
  forall s : S, 0 <= fst (Int63 s) < 2 ^ 63.
Arguments Int63_contract S {_}.

(** A source that replays a fixed list of draws (each reduced to the range
    of the contract) and then returns zeros. *)
Definition scripted : Type := list Z.

#[export] Instance scripted_Source : Source scripted :=
  {| Int63 := fun l => match l with
                       | [] => (0, [])
                       | v :: l' => (v mod 2 ^ 63, l')
                       end |}.

(** ** Panics, and the monad of generation *)

Inductive panic : Type :=
| NilDereference      (* method call through a nil interface value *)
| DivideByZero        (* integer divide by zero *)
| IndexOutOfRange     (* index out of range *)
| MakeSliceCap.       (* makeslice: cap out of range *)

Inductive result (A : Type) : Type :=
| Val (a : A)
| Panic (p : panic).
Arguments Val {A} a.
Arguments Panic {A} p.

Section Generation.

Context {S : Type} `{Source S}.

(** The state a generation threads: the state of the source object
    ([None] when the [source] field is nil) and the ghost counter. *)
Record St : Type := MkSt { rnd : option S; calls : nat }.

Definition Gen (A : Type) : Type := St -> result A * St.

Definition ret {A} (a : A) : Gen A := fun st => (Val a, st).
Definition raise {A} (p : panic) : Gen A := fun st => (Panic p, st).
Definition bind {A B} (m : Gen A) (k : A -> Gen B) : Gen B :=
  fun st => match m st with
            | (Val a, st') => k a st'
            | (Panic p, st') => (Panic p, st')
            end.
Definition tick : Gen unit :=
  fun st => (Val tt, {| rnd := rnd st; calls := Datatypes.S (calls st) |}).

Notation "x <- m ;; k" := (bind m (fun x => k))
  (at level 61, m at next level, right associativity).

Record Xeger : Type := MkXeger {
  re : Regexp;
  source : option S;
  limit : Z
}.

(** [x.source.Int63() % int64(n)], converted to [int]. *)
Definition randInt (x : Xeger) (n : Z) : Gen Z :=
  fun st =>
    match rnd st with
    | None => (Panic NilDereference, st)
    | Some s =>
        let (v, s') := Int63 s in
        let st' := {| rnd := Some s'; calls := calls st |} in
        if int64 n =? 0 then (Panic DivideByZero, st')
        else (Val (int (Z.rem v (int64 n))), st')
    end.

(** [s[i]] for a table [s] *)
Definition index (s : gostring) (i : Z) : Gen rune :=
  if (i <? 0) || (len s <=? i) then raise IndexOutOfRange
  else match nth_error s (Z.to_nat i) with
       | Some c => ret c
       | None => raise IndexOutOfRange
       end.

(** The first loop of the [OpCharClass] case: the number of code points
    of the range pairs, from the running [sum]. *)
Fixpoint classSum (rs : list rune) (sum : Z) : Gen Z :=
  match rs with
  | [] => ret sum
  | [_] => raise IndexOutOfRange
  | lo :: hi :: rest => classSum rest (int (sum + int (1 + int (int32 (hi - lo)))))
  end.

(** The second loop of the [OpCharClass] case: walk the pairs with the
    remaining [index]; the empty string when the pairs are used up. *)
Fixpoint classPick (rs : list rune) (index : rune) : Gen gostring :=
  match rs with
  | [] => ret []
  | [_] => raise IndexOutOfRange
  | lo :: hi :: rest =>
      let delta := int32 (hi - lo) in
      if index <=? delta then ret (string_of_rune (int32 (lo + index)))
      else classPick rest (int32 (index - int32 (delta + 1)))
  end.

(** The count each quantifier passes to [generateFromSubexpression]: the
    argument expression of its case (1, the count of the capture and
    concatenation cases, for the operators that draw none). *)
Definition countOf (x : Xeger) (o : Op) (min max : Z) : Gen Z :=
  match o with
  | OpStar => randInt x (int (limit x + 1))
  | OpPlus => n <- randInt x (limit x) ;; ret (int (n + 1))
  | OpQuest => randInt x 2
  | OpRepeat =>
      let max := if max =? -1 then limit x else max in
      n <- randInt x (int (int (max - min) + 1)) ;;
      ret (int (n + min))
  | _ => ret 1
  end.

Section Subexpression.

(** The recursive call on a child. *)
Variable gen : Regexp -> Gen gostring.

(** [for _, sub := range re.Sub { b = append(b, gen(sub)...) }] *)
Fixpoint rangeSub (subs : list Regexp) (b : gostring) : Gen gostring :=
  match subs with
  | [] => ret b
  | sub :: rest => s <- gen sub ;; rangeSub rest (b ++ s)
  end.

(** [for i := 0; i < count; i++ { ... }], with the iterations left. *)
Fixpoint repeatSub (subs : list Regexp) (n : nat) (b : gostring) : Gen gostring :=
  match n with
  | O => ret b
  | Datatypes.S n' => b' <- rangeSub subs b ;; repeatSub subs n' b'
  end.

(** The body of [generateFromSubexpression]: [make] panics on a negative
    capacity (the limit of memory is not modelled), then the two loops run
    from the empty buffer. *)
Definition subexpression (subs : list Regexp) (count : Z) : Gen gostring :=
  if int (len subs * count) <? 0 then raise MakeSliceCap
  else repeatSub subs (Z.to_nat count) [].

(** [gen(subs[i])] *)
Fixpoint genAt (subs : list Regexp) (i : nat) : Gen gostring :=
  match subs, i with
  | [], _ => raise IndexOutOfRange
  | sub :: _, O => gen sub
  | _ :: rest, Datatypes.S i' => genAt rest i'
  end.

End Subexpression.

(** Generates strings which are matched with re. *)
Fixpoint generateFromRegexp (x : Xeger) (re : Regexp) {struct re} : Gen gostring :=
  _ <- tick ;;
  match re with
  | MkRegexp o rune min max sub =>
      match o with
      | OpLiteral => ret (string_of_runes rune)
      | OpCharClass =>
          sum <- classSum rune 0 ;;
          n <- randInt x sum ;;
          classPick rune (int32 n)
      | OpAnyCharNotNL =>
          i <- randInt x (len printableNotNL) ;;
          c <- index printableNotNL i ;;
          ret [c]
      | OpAnyChar =>
          i <- randInt x (len printable) ;;
          c <- index printable i ;;
          ret [c]
      | OpCapture => subexpression (generateFromRegexp x) sub 1
      | OpStar | OpPlus | OpQuest | OpRepeat =>
          count <- countOf x o min max ;;
          subexpression (generateFromRegexp x) sub count
      | OpConcat => subexpression (generateFromRegexp x) sub 1
      | OpAlternate =>
          i <- randInt x (len sub) ;;
          if i <? 0 then raise IndexOutOfRange
          else genAt (generateFromRegexp x) sub (Z.to_nat i)
      | _ => ret []
      end
  end.

(** Generates strings from all sub-expressions. *)
Definition generateFromSubexpression (x : Xeger) (re : Regexp) (count : Z)
  : Gen gostring :=
  subexpression (generateFromRegexp x) (Sub re) count.

(** [Generate]: the walk of [x.re], from the current state of the source
    object [x.source] refers to. *)
Definition Generate (x : Xeger) : result gostring * St :=
  generateFromRegexp x (re x) {| rnd := source x; calls := 0 |}.

End Generation.

Arguments Xeger S : clear implicits.
Arguments St S : clear implicits.
Arguments Gen S A : clear implicits.

(** ** Construction *)

Section Construction.

Context {S : Type} `{Source S}.

(** The error type of the parser. *)
Variable Error : Type.
(** [syntax.Parse(regex, syntax.Perl)]: the external parser. *)
Variable Parse : string -> Regexp + Error.
(** The source [defaultSource()] returns. *)
Variable defaultSource : S.

(** The functional options, as the closures they wrap. *)
Inductive Option : Type :=
| WithSource (s : option S)
| WithLimit (limit : Z).

Definition apply (o : Option) (x : Xeger S) : Xeger S :=
  match o with
  | WithSource s => {| re := re x; source := s; limit := limit x |}
  | WithLimit l => {| re := re x; source := source x; limit := l |}
  end.

Definition NewXeger (regex : string) (opts : list Option) : Xeger S + Error :=
  match Parse regex with
  | inr err => inr err
  | inl r =>
      let x := {| re := r; source := None; limit := 0 |} in
      let x := fold_left (fun x o => apply o x) opts x in
      (* Set defaults *)
      let x := match source x with
               | None => {| re := re x; source := Some defaultSource; limit := limit x |}
               | Some _ => x
               end in
      let x := if limit x <=? 0
               then {| re := re x; source := source x; limit := defaultLimit |}
               else x in
      inl x
  end.

End Construction.

(** ** The earlier version of the package

    A package-level variable [src] holds the source and [limit] is a
    constant; the state of [src] is the threaded state. *)

Module Legacy.
Section Legacy.

Context {S : Type} `{Source S}.

Notation "x <- m ;; k" := (bind m (fun x => k))
(at level 61, m at next level, right associativity).

Definition limit : Z := 10.

Record Xeger : Type := MkXeger { re : Regexp }.

Variable Error : Type.
Variable Parse : string -> Regexp + Error.

Definition NewXeger (regex : string) : Xeger + Error :=
match Parse regex with
| inr err => inr err
| inl r => inl {| re := r |}
end.

(** [src.Int63() % int64(n)], converted to [int]. *)
Definition randInt (n : Z) : Gen S Z :=
fun st =>
  match rnd st with
  | None => (Panic NilDereference, st)
  | Some s =>
      let (v, s') := Int63 s in
      let st' := {| rnd := Some s'; calls := calls st |} in
      if int64 n =? 0 then (Panic DivideByZero, st')
      else (Val (int (Z.rem v (int64 n))), st')
  end.

Definition countOf (o : Op) (min max : Z) : Gen S Z :=
match o with
| OpStar => randInt (limit + 1)
| OpPlus => n <- randInt limit ;; ret (int (n + 1))
| OpQuest => randInt 2
| OpRepeat =>
    let max := if max =? -1 then limit else max in
    n <- randInt (int (int (max - min) + 1)) ;;
    ret (int (n + min))
| _ => ret 1
end.

Fixpoint generateFromRegexp (x : Xeger) (re : Regexp) {struct re} : Gen S gostring :=
_ <- tick ;;
match re with
| MkRegexp o rune min max sub =>
    match o with
    | OpLiteral => ret (string_of_runes rune)
    | OpCharClass =>
        sum <- classSum rune 0 ;;
        n <- randInt sum ;;
        classPick rune (int32 n)
    | OpAnyCharNotNL =>
        i <- randInt (len printableNotNL) ;;
        c <- index printableNotNL i ;;
        ret [c]
    | OpAnyChar =>
        i <- randInt (len printable) ;;
        c <- index printable i ;;
        ret [c]
    | OpCapture => subexpression (generateFromRegexp x) sub 1
    | OpStar | OpPlus | OpQuest | OpRepeat =>
        count <- countOf o min max ;;
        subexpression (generateFromRegexp x) sub count
    | OpConcat => subexpression (generateFromRegexp x) sub 1
    | OpAlternate =>
        i <- randInt (len sub) ;;
        if i <? 0 then raise IndexOutOfRange
        else genAt (generateFromRegexp x) sub (Z.to_nat i)
    | _ => ret []
    end
end.

Definition generateFromSubexpression (x : Xeger) (re : Regexp) (count : Z)
: Gen S gostring :=
subexpression (generateFromRegexp x) (Sub re) count.

(** [Generate], from the state [src] is in. *)
Definition Generate (x : Xeger) (src : option S) : result gostring * St S :=
generateFromRegexp x (re x) {| rnd := src; calls := 0 |}.

End Legacy.
End Legacy.

(** ** What a tree matches

    The matcher is the standard library's, not the package's: the relation
    below states the dialect's meaning of each operator, as the
    documentation of [regexp/syntax] (quoted in the comments of
    [generateFromRegexp]) gives it, on code points.  [Match re pre s post]
    says that [s], standing between [pre] and [post], is matched by [re];
    the context decides the zero-width assertions.  Literals are compared
    exactly (a case-folding literal matches its own runes too). *)

(** Membership in a range pair list. *)
Fixpoint in_class (rs : list rune) (c : rune) : bool :=
  match rs with
  | lo :: hi :: rest => ((lo <=? c) && (c <=? hi)) || in_class rest c
  | _ => false
  end.








(** ** The class walk, as the specification words it

    [class_size] is the total of [high - low + 1] over the pairs;
    [class_nth rs index] walks the pairs in order, subtracting the size of
    each pair from [index] until it falls within the current pair, and is
    [low + index] of that pair. *)

Fixpoint class_size (rs : list rune) : Z :=
  match rs with
  | lo :: hi :: rest => (hi - lo + 1) + class_size rest
  | _ => 0
  end.

Fixpoint class_nth (rs : list rune) (index : Z) : option rune :=
  match rs with
  | lo :: hi :: rest =>
      if index <? hi - lo + 1 then Some (lo + index)
      else class_nth rest (index - (hi - lo + 1))
  | _ => None
  end.


(** ** Trees of the parser *)

(** The range pairs of a class the parser builds: an even number of runes,
    every pair ordered and within the code points, each pair above the one
    before (the pairs are sorted and disjoint). *)
Fixpoint ranges_from (rs : list rune) (above : Z) : bool :=
  match rs with
  | [] => true
  | [_] => false
  | lo :: hi :: rest =>
      (above <=? lo) && (lo <=? hi) && (hi <=? MaxRune) && ranges_from rest (hi + 1)
  end.

Definition ranges_ok (rs : list rune) : bool := ranges_from rs 0.

(** The shape of a tree [syntax.Parse] returns, as far as the generator
    depends on it: well-formed classes, one child under a capture or a
    quantifier, and repeat counts within the parser's limit of 1000 with
    [Max] either -1 or at least [Min]. *)
Fixpoint parsed (re : Regexp) : bool :=
  match re with
  | MkRegexp o r mn mx sub =>
      match o with
      | OpCharClass => ranges_ok r
      | OpCapture | OpStar | OpPlus | OpQuest => Nat.eqb (List.length sub) 1
      | OpRepeat =>
          Nat.eqb (List.length sub) 1 && (0 <=? mn) && (mn <=? 1000)
          && ((mx =? -1) || ((mn <=? mx) && (mx <=? 1000)))
      | _ => true
      end && forallb parsed sub
  end.


(** The class holds scalar values only, or holds U+FFFD. *)
Fixpoint scalar_ranges (rs : list rune) : bool :=
  match rs with
  | lo :: hi :: rest =>
      ((hi <? surrogateMin) || (surrogateMax <? lo)) && scalar_ranges rest
  | _ => true
  end.


(** The nodes that repeat their child a drawn number of times. *)
Definition quantifier (o : Op) : bool :=
  match o with
  | OpStar | OpPlus | OpQuest | OpRepeat => true
  | _ => false
  end.

(** ** A static bound on the work of a generation *)

(** The most repetitions a node asks of [generateFromSubexpression]. *)
Definition rep_bound (limit : Z) (o : Op) (mn mx : Z) : Z :=
  match o with
  | OpStar | OpPlus => limit
  | OpRepeat =>
      let m := if mx =? -1 then limit else mx in
      Z.max m (2 * mn - m - 2)
  | _ => 1
  end.

(** The most invocations of [generateFromRegexp] a walk of [re] makes. *)
Fixpoint work_bound (limit : Z) (re : Regexp) : Z :=
  match re with
  | MkRegexp o _ mn mx sub =>
      let below := fold_right Z.add 0 (map (work_bound limit) sub) in
      match o with
      | OpCapture | OpConcat | OpAlternate => 1 + below
      | OpStar | OpPlus | OpQuest | OpRepeat => 1 + rep_bound limit o mn mx * below
      | _ => 1
      end
  end.

(** The child [c] makes at most [B c] invocations under [g], from any
    state. *)
Definition within {S : Type} `{Source S}
  (g : Regexp -> Gen S gostring) (B : Regexp -> Z) (c : Regexp) : Prop :=
  0 <= B c /\
  forall st, Z.of_nat (calls (snd (g c st))) <= Z.of_nat (calls st) + B c.

(** ** Sources that return the same values *)

(** The value the [n]-th next call of [Int63] returns. *)
Fixpoint nth_draw {S : Type} `{Source S} (n : nat) (s : S) : Z :=
  match n with
  | O => fst (Int63 s)
  | Datatypes.S n' => nth_draw n' (snd (Int63 s))
  end.

Definition same_draws {S1 S2 : Type} `{Source S1} `{Source S2}
  (s1 : S1) (s2 : S2) : Prop :=
  forall n, nth_draw n s1 = nth_draw n s2.

(** Two runs, each on its own source, are in step: the same number of
    invocations so far, and sources that return the same values from here
    on (or both nil). *)
Definition St_rel {S1 S2 : Type} `{Source S1} `{Source S2}
  (st1 : St S1) (st2 : St S2) : Prop :=
  calls st1 = calls st2 /\
  match rnd st1, rnd st2 with
  | Some s1, Some s2 => same_draws s1 s2
  | None, None => True
  | _, _ => False
  end.

(** Two computations that, started in step, give the same result and end
    in step. *)
Definition sim {S1 S2 : Type} `{Source S1} `{Source S2} {A : Type}
  (m1 : Gen S1 A) (m2 : Gen S2 A) : Prop :=
  forall st1 st2, St_rel st1 st2 ->
    fst (m1 st1) = fst (m2 st2) /\ St_rel (snd (m1 st1)) (snd (m2 st2)).

(** ** Trees of some patterns *)

Definition literal (s : string) : Regexp :=
  MkRegexp OpLiteral (codes s) 0 0 [].
Arguments literal s%_string.

(** [a{2,4}] *)
Definition re_a_2_4 : Regexp := MkRegexp OpRepeat [] 2 4 [literal "a"].
(** [a{11,}] *)
Definition re_a_11_ : Regexp := MkRegexp OpRepeat [] 11 (-1) [literal "a"].
(** [b^a] *)
Definition re_b_bot_a : Regexp :=
  MkRegexp OpConcat [] 0 0
    [literal "b"; MkRegexp OpBeginText [] 0 0 []; literal "a"].
(** [[\x{D7FF}-\x{E000}]] *)
Definition re_around_surrogates : Regexp :=
  MkRegexp OpCharClass [55295; 57344] 0 0 [].
(** [[\x{D800}-\x{DFFF}]] *)
Definition re_surrogates : Regexp :=
  MkRegexp OpCharClass [55296; 57343] 0 0 [].
(** [[0-9]+] *)
Definition re_digits_plus : Regexp :=
  MkRegexp OpPlus [] 0 0 [MkRegexp OpCharClass [48; 57] 0 0 []].

(** ** Options, by kind *)

Definition is_WithLimit {S : Type} (o : @Option S) : bool :=
  match o with
  | WithLimit _ => true
  | WithSource _ => false
  end.

Definition is_WithSource {S : Type} (o : @Option S) : bool :=
  match o with
  | WithSource _ => true
  | WithLimit _ => false
  end.

(** ** Properties of a computation, and trees that cannot fail *)

(** Started with a source that is not nil, [m] does not fail on a nil
    source and ends with a source that is not nil. *)
Definition keeps_source {S : Type} `{Source S} {A : Type} (m : Gen S A) : Prop :=
  forall st, rnd st <> None ->
    fst (m st) <> Panic NilDereference /\ rnd (snd (m st)) <> None.

(** Every code point of the string is a Unicode scalar value. *)
Definition scalar_string (s : gostring) : Prop :=
  Forall (fun c => valid_rune c = true) s.

(** Whatever [g] generates for the child [c] is made of scalar values. *)
Definition scalar_child {S : Type} `{Source S}
  (g : Regexp -> Gen S gostring) (c : Regexp) : Prop :=
  forall st s st', g c st = (Val s, st') -> scalar_string s.



(** ** Trees that draw nothing, and trees the limit does not reach *)

(** No node that calls [randInt]: literals, captures, concatenations and
    the nodes that generate the empty string. *)
Fixpoint draw_free (re : Regexp) : bool :=
  match re with
  | MkRegexp o _ _ _ sub =>
      match o with
      | OpCharClass | OpAnyCharNotNL | OpAnyChar | OpStar | OpPlus | OpQuest
      | OpRepeat | OpAlternate => false
      | _ => true
      end && forallb draw_free sub
  end.

(** No node that reads [x.limit]: no star, no plus and no repeat without
    maximum. *)
Fixpoint limit_free (re : Regexp) : bool :=
  match re with
  | MkRegexp o _ _ mx sub =>
      match o with
      | OpStar | OpPlus => false
      | OpRepeat => negb (mx =? -1)
      | _ => true
      end && forallb limit_free sub
  end.

(** Two computations that give the same result from any two states, and
    leave the source of each as it was. *)
Definition blind {S1 S2 : Type} `{Source S1} `{Source S2} {A : Type}
  (m1 : Gen S1 A) (m2 : Gen S2 A) : Prop :=
  forall st1 st2,
    fst (m1 st1) = fst (m2 st2)
    /\ rnd (snd (m1 st1)) = rnd st1 /\ rnd (snd (m2 st2)) = rnd st2.

(** ** A static bound on the length of the output *)

(** The most code points a walk of [re] returns. *)
Fixpoint out_bound (limit : Z) (re : Regexp) : Z :=
  match re with
  | MkRegexp o r mn mx sub =>
      let below := fold_right Z.add 0 (map (out_bound limit) sub) in
      match o with
      | OpLiteral => len r
      | OpCharClass | OpAnyCharNotNL | OpAnyChar => 1
      | OpCapture | OpConcat | OpAlternate => below
      | OpStar | OpPlus | OpQuest | OpRepeat => rep_bound limit o mn mx * below
      | _ => 0
      end
  end.

(** Whatever [g] generates for the child [c] has at most [B c] code
    points. *)
Definition fits {S : Type} `{Source S}
  (g : Regexp -> Gen S gostring) (B : Regexp -> Z) (c : Regexp) : Prop :=
  0 <= B c /\ forall st s st', g c st = (Val s, st') -> len s <= B c.

(** A source that replays its list as it is, within the contract of the
    interface or not, and then returns zeros. *)
Record unchecked : Type := Unchecked { pending : list Z }.

#[export] Instance unchecked_Source : Source unchecked :=
  {| Int63 := fun u => match pending u with
                       | [] => (0, u)
                       | v :: rest => (v, Unchecked rest)
                       end |}.

(** ** Computations whose only failure is a division by zero *)



(** * Properties *)

(** ** Integers *)

Lemma int_id z : is_int z -> int z = z.
Proof.
  unfold is_int, min_int, max_int, int, wrap. intros Hz.
  change (2 ^ (64 - 1)) with 9223372036854775808.
  change (2 ^ 64) with 18446744073709551616.
  change (2 ^ 63) with 9223372036854775808 in Hz.
  rewrite Z.mod_small; lia.
Qed.

Lemma int64_id z : is_int z -> int64 z = z.
Proof. exact (int_id z). Qed.

Lemma int32_id z : is_int32 z -> int32 z = z.
Proof.
  unfold is_int32, int32, wrap. intros Hz.
  change (2 ^ (32 - 1)) with 2147483648.
  change (2 ^ 32) with 4294967296.
  change (2 ^ 31) with 2147483648 in Hz.
  rewrite Z.mod_small; lia.
Qed.

Lemma int_is_int z : is_int (int z).
Proof.
  unfold is_int, min_int, max_int, int, wrap.
  change (2 ^ (64 - 1)) with 9223372036854775808.
  change (2 ^ 64) with 18446744073709551616.
  change (2 ^ 63) with 9223372036854775808.
  pose proof (Z.mod_pos_bound (z + 9223372036854775808) 18446744073709551616).
  lia.
Qed.

(** Go's [%] on a non-negative dividend. *)
Lemma rem_nonneg_range v n :
  0 <= v -> n <> 0 -> 0 <= Z.rem v n < Z.abs n /\ Z.rem v n <= v.
Proof.
  intros Hv Hn. rewrite <- (Z.rem_abs_r v n Hn).
  assert (Ha : 0 < Z.abs n) by lia.
  split; [apply Z.rem_bound_pos | apply Z.rem_le]; lia.
Qed.

Lemma scripted_contract : Int63_contract scripted.
Proof.
  intros [|v l]; simpl; [lia|].
  apply Z.mod_pos_bound. reflexivity.
Qed.

(** ** The uniform draw *)

Section RandInt.

Context {S : Type} `{Source S}.

Lemma randInt_eq (x : Xeger S) n s c :
  int64 n <> 0 ->
  randInt x n {| rnd := Some s; calls := c |} =
    (Val (int (Z.rem (fst (Int63 s)) (int64 n))),
     {| rnd := Some (snd (Int63 s)); calls := c |}).
Proof.
  intros Hn. unfold randInt. simpl. destruct (Int63 s) as [v s'].
  apply Z.eqb_neq in Hn. rewrite Hn. reflexivity.
Qed.

Lemma randInt_zero (x : Xeger S) n s c :
  int64 n = 0 ->
  randInt x n {| rnd := Some s; calls := c |} =
    (Panic DivideByZero, {| rnd := Some (snd (Int63 s)); calls := c |}).
Proof.
  intros Hn. unfold randInt. simpl. destruct (Int63 s) as [v s'].
  rewrite Hn. reflexivity.
Qed.

(** What a draw returns, for any [int] divisor: a panic and no value on
    zero; otherwise the remainder, which is not negative, is below the
    magnitude of the divisor and is at most the value drawn. *)
Lemma randInt_inv (x : Xeger S) n st r st' :
  Int63_contract S -> is_int n ->
  randInt x n st = (Val r, st') ->
  exists s, rnd st = Some s /\ n <> 0 /\
    r = Z.rem (fst (Int63 s)) n /\ 0 <= r < Z.abs n /\ r <= max_int /\
    r <= fst (Int63 s) /\
    st' = {| rnd := Some (snd (Int63 s)); calls := calls st |}.
Proof.
  intros Hc Hn. unfold randInt.
  destruct (rnd st) as [s|] eqn:Hs; [|discriminate].
  pose proof (Hc s) as Hv. destruct (Int63 s) as [v s'] eqn:Hi. simpl in Hv.
  rewrite (int64_id _ Hn).
  destruct (n =? 0) eqn:Hz; [discriminate|]. apply Z.eqb_neq in Hz.
  intros Heq. inversion Heq; subst. clear Heq.
  destruct (rem_nonneg_range v n) as [Hr Hle]; [lia|assumption|].
  assert (Hint : is_int (Z.rem v n)).
  { unfold is_int, min_int, max_int. change (2 ^ 63) with 9223372036854775808 in *. lia. }
  rewrite (int_id _ Hint).
  exists s. rewrite Hi. simpl.
  unfold max_int. change (2 ^ 63) with 9223372036854775808 in *.
  repeat split; try assumption; try lia.
Qed.

Lemma randInt_calls (x : Xeger S) n st :
  calls (snd (randInt x n st)) = calls st.
Proof.
  unfold randInt. destruct (rnd st); [|reflexivity].
  destruct (Int63 s). destruct (int64 n =? 0); reflexivity.
Qed.

(** On a positive divisor and a value within the contract, the draw is
    the value modulo the divisor. *)
Lemma randInt_mod (x : Xeger S) (n : Z) (s : S) (c : nat) :
  0 < n -> n <= max_int ->
  0 <= fst (Int63 s) < 2 ^ 63 ->
  randInt x n {| rnd := Some s; calls := c |} =
    (Val (fst (Int63 s) mod n), {| rnd := Some (snd (Int63 s)); calls := c |}).
Proof.
  intros Hn Hmax Hv.
  assert (Hi : is_int n) by (unfold is_int, min_int, max_int in *; lia).
  assert (Hb : 0 <= fst (Int63 s) mod n < n) by (apply Z.mod_pos_bound; lia).
  rewrite randInt_eq by (rewrite (int64_id _ Hi); lia).
  rewrite (int64_id _ Hi), Z.rem_mod_nonneg by lia.
  rewrite int_id; [reflexivity|].
  unfold is_int, min_int, max_int in *. lia.
Qed.

(** C7. For every [n > 0] (an [int]) and every source state whose
    [Int63] returns a value in [0, 2^63), [randInt(n)] returns a
    non-negative integer in [0, n): the value drawn reduced modulo [n]. *)
Theorem randInt_range (x : Xeger S) (n : Z) (s : S) (c : nat) :
  0 < n -> n <= max_int ->
  0 <= fst (Int63 s) < 2 ^ 63 ->
  exists r,
    randInt x n {| rnd := Some s; calls := c |} =
      (Val r, {| rnd := Some (snd (Int63 s)); calls := c |})
    /\ 0 <= r < n
    /\ r = fst (Int63 s) mod n.
Proof.
  intros Hn Hmax Hv. exists (fst (Int63 s) mod n).
  split; [apply randInt_mod; assumption|].
  split; [apply Z.mod_pos_bound; lia|reflexivity].
Qed.

End RandInt.

(** A state of [scripted] that draws 7 first, reduced modulo 3. *)
Lemma randInt_range_witness :
  exists r,
    randInt {| re := literal "a"; source := Some ([7] : scripted); limit := 10 |} 3
      {| rnd := Some [7]; calls := 0 |} =
      (Val r, {| rnd := Some (snd (Int63 ([7] : scripted))); calls := 0 |})
    /\ 0 <= r < 3
    /\ r = fst (Int63 ([7] : scripted)) mod 3.
Proof.
  apply (randInt_range
           {| re := literal "a"; source := Some ([7] : scripted); limit := 10 |}
           3 [7] 0%nat).
  - lia.
  - unfold max_int. lia.
  - change (fst (Int63 ([7] : scripted))) with 7. lia.
Defined.

(** ** Unfolding the walk *)

Ltac int_range := unfold is_int, is_int32, min_int, max_int in *; lia.

Section Walk.

Context {S : Type} `{Source S}.

Notation "x <- m ;; k" := (bind m (fun x => k))
  (at level 61, m at next level, right associativity).


Lemma bind_val {A B} (m : Gen S A) (k : A -> Gen S B) st b st' :
  bind m k st = (Val b, st') ->
  exists a st1, m st = (Val a, st1) /\ k a st1 = (Val b, st').
Proof.
  unfold bind. destruct (m st) as [[a|p] st1]; [|discriminate].
  intros Hk. exists a, st1. split; [reflexivity|assumption].
Qed.

Lemma ret_val {A} (a b : A) (st st' : St S) :
  ret a st = (Val b, st') -> b = a /\ st' = st.
Proof. unfold ret. intros Heq. inversion Heq. split; reflexivity. Qed.

(** The bounds of the count of each quantifier. *)
Lemma countOf_bounds (x : Xeger S) o mn mx st count st' :
  Int63_contract S ->
  0 < limit x <= max_int ->
  countOf x o mn mx st = (Val count, st') ->
  match o with
  | OpStar => 0 <= count <= limit x
  | OpPlus => 1 <= count <= limit x
  | OpQuest => count = 0 \/ count = 1
  | OpRepeat =>
      (mx = -1 -> 0 <= mn <= limit x -> mn <= count <= limit x)
      /\ (mx <> -1 -> 0 <= mn <= mx -> mx < max_int -> mn <= count <= mx)
  | _ => True
  end.
Proof.
  intros Hc Hl. destruct o; simpl; trivial.
  - (* OpStar *)
    intros Hr.
    destruct (randInt_inv _ _ _ _ _ Hc (int_is_int (limit x + 1)) Hr)
      as (s & _ & _ & _ & Hb & Hm & _).
    destruct (Z.eq_dec (limit x) max_int) as [He|He]; [lia|].
    rewrite int_id in Hb by int_range. lia.
  - (* OpPlus *)
    intros Hr. apply bind_val in Hr. destruct Hr as (n & st1 & Hr & Hret).
    apply ret_val in Hret. destruct Hret as [-> _].
    assert (Hi : is_int (limit x)) by int_range.
    destruct (randInt_inv _ _ _ _ _ Hc Hi Hr) as (s & _ & _ & _ & Hb & _).
    rewrite int_id by int_range. lia.
  - (* OpQuest *)
    intros Hr.
    assert (Hi : is_int 2) by int_range.
    destruct (randInt_inv _ _ _ _ _ Hc Hi Hr) as (s & _ & _ & _ & Hb & _). lia.
  - (* OpRepeat *)
    intros Hr. apply bind_val in Hr. destruct Hr as (n & st1 & Hr & Hret).
    apply ret_val in Hret. destruct Hret as [-> _].
    split.
    + intros -> Hmn. simpl in Hr.
      destruct (randInt_inv _ _ _ _ _ Hc (int_is_int (int (limit x - mn) + 1)) Hr)
        as (s & _ & _ & _ & Hb & Hm & _).
      rewrite (int_id (limit x - mn)) in Hb by int_range.
      destruct (Z.eq_dec (limit x - mn) max_int) as [He|He].
      * rewrite int_id by int_range. lia.
      * rewrite int_id in Hb by int_range.
        rewrite int_id by int_range. lia.
    + intros Hx Hmn Hmx.
      apply Z.eqb_neq in Hx. rewrite Hx in Hr.
      destruct (randInt_inv _ _ _ _ _ Hc (int_is_int (int (mx - mn) + 1)) Hr)
        as (s & _ & _ & _ & Hb & Hm & _).
      rewrite (int_id (mx - mn)) in Hb by int_range.
      rewrite int_id in Hb by int_range.
      rewrite int_id by int_range. lia.
Qed.

End Walk.

(** ** Repetition counts *)




(** ** The scenario [a{2,4}] *)

(** C2, as amended.  On [a{2,4}], whatever the cap, a source that draws 2
    makes the count 2 + 2 = 4 and [Generate] returns "aaaa". *)
Theorem Generate_a_2_4_draw_2
  (S : Type) `{Source S} (s : S) (cap : Z) :
  fst (Int63 s) = 2 ->
  fst (Generate {| re := re_a_2_4; source := Some s; limit := cap |})
  = Val (codes "aaaa").
Proof.
  intros Hv. unfold Generate, re_a_2_4. simpl.
  unfold bind, tick, randInt. simpl.
  destruct (Int63 s) as [v s']. simpl in Hv. subst v.
  reflexivity.
Qed.

Lemma Generate_a_2_4_draw_2_witness :
  fst (Generate {| re := re_a_2_4; source := Some ([2] : scripted); limit := 10 |})
  = Val (codes "aaaa").
Proof.
  apply (Generate_a_2_4_draw_2 scripted [2] 10). reflexivity.
Defined.

(** C2 as stated fails: the string is not "aaa". *)
Lemma Generate_a_2_4_not_aaa :
  fst (Generate {| re := re_a_2_4; source := Some ([2] : scripted); limit := 10 |})
  <> Val (codes "aaa").
Proof. vm_compute. discriminate. Qed.

(** ** Construction and failure *)

Section NewXegerFacts.

Context {S : Type} `{Source S}.
Variable Error : Type.
Variable Parse : string -> Regexp + Error.
Variable defaultSource : S.

Lemma apply_re (o : Option) (x : Xeger S) : re (apply o x) = re x.
Proof. destruct o; reflexivity. Qed.

Lemma fold_apply_re (opts : list Option) (x : Xeger S) :
  re (fold_left (fun x o => apply o x) opts x) = re x.
Proof.
  revert x. induction opts as [|o opts IH]; intros x; simpl; [reflexivity|].
  rewrite IH. apply apply_re.
Qed.

(** [NewXeger] fails exactly when the parser does, with its error. *)
Lemma NewXeger_error_iff regex opts err :
  NewXeger Error Parse defaultSource regex opts = inr err
  <-> Parse regex = inr err.
Proof.
  unfold NewXeger. destruct (Parse regex) as [r|e]; split; intros Heq;
    first [discriminate Heq | inversion Heq; reflexivity].
Qed.

(** Otherwise it returns a generator for the parsed tree, with a source
    and a positive limit. *)
Lemma NewXeger_ok regex opts r :
  Parse regex = inl r ->
  exists x, NewXeger Error Parse defaultSource regex opts = inl x
            /\ re x = r /\ source x <> None /\ 0 < limit x.
Proof.
  intros Hp. unfold NewXeger. rewrite Hp.
  set (x0 := fold_left _ opts _).
  assert (Hre : re x0 = r) by (unfold x0; rewrite fold_apply_re; reflexivity).
  eexists. split; [reflexivity|].
  destruct (source x0) as [s|] eqn:Hs; simpl;
    destruct (limit _ <=? 0) eqn:Hl; simpl in *;
    try rewrite Hs; repeat split; try assumption; try discriminate;
    try (unfold defaultLimit; lia); apply Z.leb_gt in Hl; assumption.
Qed.

Lemma NewXeger_inv regex opts x :
  NewXeger Error Parse defaultSource regex opts = inl x ->
  Parse regex = inl (re x) /\ source x <> None /\ 0 < limit x.
Proof.
  intros Hx. destruct (Parse regex) as [r|e] eqn:Hp.
  - destruct (NewXeger_ok regex opts r Hp) as (x' & Hx' & Hre & Hs & Hl).
    rewrite Hx' in Hx. inversion Hx; subst x'. rewrite Hre. tauto.
  - unfold NewXeger in Hx. rewrite Hp in Hx. discriminate.
Qed.

Lemma NewXeger_default regex r :
  Parse regex = inl r ->
  NewXeger Error Parse defaultSource regex [] =
    inl {| re := r; source := Some defaultSource; limit := defaultLimit |}.
Proof. intros Hp. unfold NewXeger. rewrite Hp. reflexivity. Qed.

End NewXegerFacts.

(** Any repeat without maximum whose minimum is the limit plus one makes
    [randInt] divide by zero. *)
Lemma Generate_repeat_min_above_limit_panics
  (S : Type) `{Source S} (r : list rune) (mn cap : Z) (sub : list Regexp) (s : S) :
  mn = cap + 1 ->
  fst (Generate {| re := MkRegexp OpRepeat r mn (-1) sub;
                   source := Some s; limit := cap |})
  = Panic DivideByZero.
Proof.
  intros ->. unfold Generate. cbn [re source generateFromRegexp].
  unfold bind at 1. unfold tick. cbn [countOf]. rewrite Z.eqb_refl.
  unfold bind. cbn [limit rnd calls].
  replace (cap - (cap + 1)) with (-1) by lia.
  rewrite randInt_zero by reflexivity. reflexivity.
Qed.

(** An empty class makes [randInt] divide by zero. *)
Lemma Generate_empty_class_panics
  (S : Type) `{Source S} (mn mx cap : Z) (sub : list Regexp) (s : S) :
  fst (Generate {| re := MkRegexp OpCharClass [] mn mx sub;
                   source := Some s; limit := cap |})
  = Panic DivideByZero.
Proof.
  unfold Generate. cbn [re source generateFromRegexp classSum].
  unfold bind, tick, ret. cbn [rnd calls].
  rewrite randInt_zero by reflexivity. reflexivity.
Qed.

(** C5, the failing run.  When the parser returns the tree of [a{11,}],
    [NewXeger] with no option succeeds, and [Generate] on its result panics
    with an integer division by zero, whatever the source: the cap 10
    stands for the missing maximum and [randInt] is called with
    10 - 11 + 1 = 0. *)
Theorem Generate_a_11_panics
  (S : Type) `{Source S} (Error : Type) (Parse : string -> Regexp + Error)
  (defaultSource : S) (regex : string) :
  Parse regex = inl re_a_11_ ->
  exists x, NewXeger Error Parse defaultSource regex [] = inl x
            /\ fst (Generate x) = Panic DivideByZero.
Proof.
  intros Hp. eexists. split.
  - apply NewXeger_default. exact Hp.
  - unfold Generate. simpl. unfold bind, tick, randInt. simpl.
    destruct (Int63 defaultSource). reflexivity.
Qed.

Lemma Generate_a_11_panics_witness :
  exists x, NewXeger unit (fun _ => inl re_a_11_) ([] : scripted) "a{11,}" [] = inl x
            /\ fst (Generate x) = Panic DivideByZero.
Proof.
  apply (Generate_a_11_panics scripted unit (fun _ => inl re_a_11_) [] "a{11,}").
  reflexivity.
Defined.

(** ** Determinism *)

Section Simulation.

Context {S1 S2 : Type} `{Source S1} `{Source S2}.

Lemma same_draws_step (s1 : S1) (s2 : S2) :
  same_draws s1 s2 ->
  fst (Int63 s1) = fst (Int63 s2)
  /\ same_draws (snd (Int63 s1)) (snd (Int63 s2)).
Proof.
  intros Hd. split.
  - exact (Hd O).
  - intros n. exact (Hd (Datatypes.S n)).
Qed.

Lemma sim_ret {A} (a : A) : sim (S1 := S1) (S2 := S2) (ret a) (ret a).
Proof. intros st1 st2 Hr. simpl. split; [reflexivity|assumption]. Qed.

Lemma sim_raise {A} (p : panic) :
  sim (S1 := S1) (S2 := S2) (A := A) (raise p) (raise p).
Proof. intros st1 st2 Hr. simpl. split; [reflexivity|assumption]. Qed.

Lemma sim_tick : sim (S1 := S1) (S2 := S2) tick tick.
Proof.
  intros st1 st2 [Hc Hr]. simpl. split; [reflexivity|].
  split; simpl; [congruence|assumption].
Qed.

Lemma sim_bind {A B} (m1 : Gen S1 A) (m2 : Gen S2 A)
  (k1 : A -> Gen S1 B) (k2 : A -> Gen S2 B) :
  sim m1 m2 -> (forall a, sim (k1 a) (k2 a)) -> sim (bind m1 k1) (bind m2 k2).
Proof.
  intros Hm Hk st1 st2 Hr. unfold bind.
  destruct (Hm st1 st2 Hr) as [Hv Hs].
  destruct (m1 st1) as [[a1|p1] st1']; destruct (m2 st2) as [[a2|p2] st2'];
    simpl in *; try discriminate.
  - inversion Hv; subst. apply Hk. assumption.
  - inversion Hv; subst. split; [reflexivity|assumption].
Qed.

Lemma sim_randInt (x1 : Xeger S1) (x2 : Xeger S2) (n : Z) :
  sim (randInt x1 n) (randInt x2 n).
Proof.
  intros st1 st2 [Hc Hr]. unfold randInt.
  destruct (rnd st1) as [s1|] eqn:H1; destruct (rnd st2) as [s2|] eqn:H2;
    try contradiction.
  - destruct (same_draws_step s1 s2 Hr) as [Hv Hs].
    destruct (Int63 s1) as [v1 s1']; destruct (Int63 s2) as [v2 s2'].
    simpl in Hv, Hs. subst v2.
    destruct (int64 n =? 0); simpl; (split; [reflexivity|]);
      (split; simpl; assumption).
  - simpl. split; [reflexivity|]. split; [assumption|].
    rewrite H1, H2. exact I.
Qed.

Lemma sim_index (s : gostring) (i : Z) :
  sim (S1 := S1) (S2 := S2) (index s i) (index s i).
Proof.
  unfold index. destruct ((i <? 0) || (len s <=? i)); [apply sim_raise|].
  destruct (nth_error s (Z.to_nat i)); [apply sim_ret|apply sim_raise].
Qed.

Lemma sim_classSum (rs : list rune) :
  forall sum, sim (S1 := S1) (S2 := S2) (classSum rs sum) (classSum rs sum).
Proof.
  induction rs as [rs IH] using (well_founded_induction
    (Wf_nat.well_founded_ltof _ (@List.length rune))).
  intros sum. destruct rs as [|lo [|hi rest]]; simpl.
  - apply sim_ret.
  - apply sim_raise.
  - apply IH. unfold Wf_nat.ltof. simpl. lia.
Qed.

Lemma sim_classPick (rs : list rune) :
  forall i, sim (S1 := S1) (S2 := S2) (classPick rs i) (classPick rs i).
Proof.
  induction rs as [rs IH] using (well_founded_induction
    (Wf_nat.well_founded_ltof _ (@List.length rune))).
  intros i. destruct rs as [|lo [|hi rest]]; simpl.
  - apply sim_ret.
  - apply sim_raise.
  - destruct (i <=? int32 (hi - lo)); [apply sim_ret|].
    apply IH. unfold Wf_nat.ltof. simpl. lia.
Qed.

Lemma sim_countOf (x1 : Xeger S1) (x2 : Xeger S2) o mn mx :
  limit x1 = limit x2 ->
  sim (countOf x1 o mn mx) (countOf x2 o mn mx).
Proof.
  intros Hl. destruct o; simpl; try apply sim_ret; try rewrite Hl.
  - apply sim_randInt.
  - apply sim_bind; [apply sim_randInt|]. intros n. apply sim_ret.
  - apply sim_randInt.
  - apply sim_bind; [apply sim_randInt|]. intros n. apply sim_ret.
Qed.

Section Children.

Variables (g1 : Regexp -> Gen S1 gostring) (g2 : Regexp -> Gen S2 gostring).

Lemma sim_rangeSub (subs : list Regexp) :
  Forall (fun c => sim (g1 c) (g2 c)) subs ->
  forall b, sim (rangeSub g1 subs b) (rangeSub g2 subs b).
Proof.
  induction 1 as [|c rest Hc _ IH]; intros b; simpl.
  - apply sim_ret.
  - apply sim_bind; [exact Hc|]. intros s. apply IH.
Qed.

Lemma sim_repeatSub (subs : list Regexp) (n : nat) :
  Forall (fun c => sim (g1 c) (g2 c)) subs ->
  forall b, sim (repeatSub g1 subs n b) (repeatSub g2 subs n b).
Proof.
  intros Hs. induction n as [|n IH]; intros b; simpl.
  - apply sim_ret.
  - apply sim_bind; [apply sim_rangeSub; exact Hs|]. intros b'. apply IH.
Qed.

Lemma sim_subexpression (subs : list Regexp) (count : Z) :
  Forall (fun c => sim (g1 c) (g2 c)) subs ->
  sim (subexpression g1 subs count) (subexpression g2 subs count).
Proof.
  intros Hs. unfold subexpression.
  destruct (int (len subs * count) <? 0); [apply sim_raise|].
  apply sim_repeatSub. exact Hs.
Qed.

Lemma sim_genAt (subs : list Regexp) :
  Forall (fun c => sim (g1 c) (g2 c)) subs ->
  forall i, sim (genAt g1 subs i) (genAt g2 subs i).
Proof.
  induction 1 as [|c rest Hc _ IH]; intros i; simpl.
  - apply sim_raise.
  - destruct i as [|i]; [exact Hc|apply IH].
Qed.

End Children.

(** The walk is the same function of the tree, the limit and the values
    drawn. *)
Lemma sim_generateFromRegexp (x1 : Xeger S1) (x2 : Xeger S2) :
  limit x1 = limit x2 ->
  forall re, sim (generateFromRegexp x1 re) (generateFromRegexp x2 re).
Proof.
  intros Hl re. induction re as [o r mn mx sub IH] using Regexp_nested_ind.
  simpl. apply sim_bind; [apply sim_tick|]. intros _.
  destruct o; try apply sim_ret.
  - (* OpCharClass *)
    apply sim_bind; [apply sim_classSum|]. intros sum.
    apply sim_bind; [apply sim_randInt|]. intros n. apply sim_classPick.
  - (* OpAnyCharNotNL *)
    apply sim_bind; [apply sim_randInt|]. intros i.
    apply sim_bind; [apply sim_index|]. intros c. apply sim_ret.
  - (* OpAnyChar *)
    apply sim_bind; [apply sim_randInt|]. intros i.
    apply sim_bind; [apply sim_index|]. intros c. apply sim_ret.
  - apply sim_subexpression. exact IH.
  - apply sim_bind; [apply sim_countOf; exact Hl|]. intros c.
    apply sim_subexpression. exact IH.
  - apply sim_bind; [apply sim_countOf; exact Hl|]. intros c.
    apply sim_subexpression. exact IH.
  - apply sim_bind; [apply sim_countOf; exact Hl|]. intros c.
    apply sim_subexpression. exact IH.
  - apply sim_bind; [apply sim_countOf; exact Hl|]. intros c.
    apply sim_subexpression. exact IH.
  - apply sim_subexpression. exact IH.
  - (* OpAlternate *)
    apply sim_bind; [apply sim_randInt|]. intros i.
    destruct (i <? 0); [apply sim_raise|]. apply sim_genAt. exact IH.
Qed.

End Simulation.

(** C6.  For a fixed tree and a fixed cap, two runs of [Generate] whose
    sources return the same sequence of values give the same result: the
    same string, or the same panic, after the same number of calls. *)
Theorem Generate_deterministic
  (S1 S2 : Type) `{Source S1} `{Source S2}
  (re : Regexp) (cap : Z) (s1 : S1) (s2 : S2) :
  same_draws s1 s2 ->
  fst (Generate {| re := re; source := Some s1; limit := cap |})
  = fst (Generate {| re := re; source := Some s2; limit := cap |})
  /\ calls (snd (Generate {| re := re; source := Some s1; limit := cap |}))
     = calls (snd (Generate {| re := re; source := Some s2; limit := cap |})).
Proof.
  intros Hd. unfold Generate. simpl.
  destruct (sim_generateFromRegexp
              {| re := re; source := Some s1; limit := cap |}
              {| re := re; source := Some s2; limit := cap |}
              eq_refl re
              {| rnd := Some s1; calls := 0 |}
              {| rnd := Some s2; calls := 0 |}) as [Hv [Hc _]].
  - split; [reflexivity|exact Hd].
  - split; assumption.
Qed.

(** Two states of [scripted] that differ and draw the same values. *)
Lemma Generate_deterministic_witness :
  fst (Generate {| re := re_digits_plus;
                   source := Some ([2; 4; 2; 7] : scripted); limit := 10 |})
  = fst (Generate {| re := re_digits_plus;
                     source := Some ([2; 4; 2; 7; 0] : scripted); limit := 10 |})
  /\ calls (snd (Generate {| re := re_digits_plus;
                             source := Some ([2; 4; 2; 7] : scripted); limit := 10 |}))
     = calls (snd (Generate {| re := re_digits_plus;
                               source := Some ([2; 4; 2; 7; 0] : scripted);
                               limit := 10 |})).
Proof.
  apply (Generate_deterministic scripted scripted re_digits_plus 10
           [2; 4; 2; 7] [2; 4; 2; 7; 0]).
  intros n. do 5 (destruct n as [|n]; [reflexivity|]). reflexivity.
Defined.

(** ** The earlier version *)

Section LegacyEquivalence.

Context {S : Type} `{Source S}.

(** Pointwise equal computations. *)
Lemma bind_ext {A B} (m1 m2 : Gen S A) (k1 k2 : A -> Gen S B) st :
  m1 st = m2 st -> (forall a st', k1 a st' = k2 a st') ->
  bind m1 k1 st = bind m2 k2 st.
Proof.
  intros Hm Hk. unfold bind. rewrite Hm.
  destruct (m2 st) as [[a|p] st']; [apply Hk|reflexivity].
Qed.

Section Children.

Variables g1 g2 : Regexp -> Gen S gostring.

Lemma rangeSub_ext (subs : list Regexp) :
  Forall (fun c => forall st, g1 c st = g2 c st) subs ->
  forall b st, rangeSub g1 subs b st = rangeSub g2 subs b st.
Proof.
  induction 1 as [|c rest Hc _ IH]; intros b st; simpl; [reflexivity|].
  apply bind_ext; [apply Hc|]. intros s st'. apply IH.
Qed.

Lemma repeatSub_ext (subs : list Regexp) (n : nat) :
  Forall (fun c => forall st, g1 c st = g2 c st) subs ->
  forall b st, repeatSub g1 subs n b st = repeatSub g2 subs n b st.
Proof.
  intros Hs. induction n as [|n IH]; intros b st; simpl; [reflexivity|].
  apply bind_ext; [apply rangeSub_ext; exact Hs|]. intros b' st'. apply IH.
Qed.

Lemma subexpression_ext (subs : list Regexp) (count : Z) :
  Forall (fun c => forall st, g1 c st = g2 c st) subs ->
  forall st, subexpression g1 subs count st = subexpression g2 subs count st.
Proof.
  intros Hs st. unfold subexpression.
  destruct (int (len subs * count) <? 0); [reflexivity|].
  apply repeatSub_ext. exact Hs.
Qed.

Lemma genAt_ext (subs : list Regexp) :
  Forall (fun c => forall st, g1 c st = g2 c st) subs ->
  forall i st, genAt g1 subs i st = genAt g2 subs i st.
Proof.
  induction 1 as [|c rest Hc _ IH]; intros i st; simpl; [reflexivity|].
  destruct i as [|i]; [apply Hc|apply IH].
Qed.

End Children.

Lemma Legacy_countOf_eq (x : Xeger S) o mn mx st :
  limit x = defaultLimit ->
  Legacy.countOf o mn mx st = countOf x o mn mx st.
Proof.
  intros Hl. destruct o; simpl; try reflexivity; rewrite Hl; reflexivity.
Qed.

(** With the limit 10, the walk of the earlier version is the walk of
    the generator, state for state. *)
Lemma Legacy_generateFromRegexp_eq (x : Xeger S) (lx : Legacy.Xeger) :
  limit x = defaultLimit ->
  forall re st,
    Legacy.generateFromRegexp lx re st = generateFromRegexp x re st.
Proof.
  intros Hl re. induction re as [o r mn mx sub IH] using Regexp_nested_ind.
  intros st. simpl. apply bind_ext; [reflexivity|]. intros _ st1.
  destruct o; try reflexivity.
  - apply subexpression_ext. exact IH.
  - apply bind_ext; [apply Legacy_countOf_eq; exact Hl|]. intros c st2.
    apply subexpression_ext. exact IH.
  - apply bind_ext; [apply Legacy_countOf_eq; exact Hl|]. intros c st2.
    apply subexpression_ext. exact IH.
  - apply bind_ext; [apply Legacy_countOf_eq; exact Hl|]. intros c st2.
    apply subexpression_ext. exact IH.
  - apply bind_ext; [apply Legacy_countOf_eq; exact Hl|]. intros c st2.
    apply subexpression_ext. exact IH.
  - apply subexpression_ext. exact IH.
  - apply bind_ext; [reflexivity|]. intros i st2.
    destruct (i <? 0); [reflexivity|]. apply genAt_ext. exact IH.
Qed.

End LegacyEquivalence.

(** C10.  For every pattern the parser accepts, the generator [NewXeger]
    builds with no option (limit 10) and the generator of the earlier
    version give the same result (the same string, or the same panic)
    whenever the package-level source of the earlier version returns the
    same values as the generator's source. *)
Theorem Generate_agrees_with_Legacy
  (S1 S2 : Type) `{Source S1} `{Source S2}
  (Error : Type) (Parse : string -> Regexp + Error)
  (defaultSource : S1) (regex : string) (x : Xeger S1) :
  NewXeger Error Parse defaultSource regex [] = inl x ->
  exists lx,
    Legacy.NewXeger Error Parse regex = inl lx
    /\ forall src : S2,
        same_draws defaultSource src ->
        fst (Legacy.Generate lx (Some src)) = fst (Generate x).
Proof.
  intros Hx. unfold NewXeger in Hx. unfold Legacy.NewXeger.
  destruct (Parse regex) as [r|e]; [|discriminate].
  simpl in Hx. inversion Hx; subst x. clear Hx.
  eexists. split; [reflexivity|]. intros src Hd.
  unfold Legacy.Generate, Generate. simpl.
  rewrite (Legacy_generateFromRegexp_eq
             {| re := r; source := Some src; limit := defaultLimit |}
             {| Legacy.re := r |} eq_refl).
  symmetry.
  apply (sim_generateFromRegexp
           {| re := r; source := Some defaultSource; limit := defaultLimit |}
           {| re := r; source := Some src; limit := defaultLimit |}
           eq_refl r).
  split; [reflexivity|exact Hd].
Qed.

Lemma Generate_agrees_with_Legacy_witness :
  exists lx,
    Legacy.NewXeger unit (fun _ => inl re_digits_plus) "[0-9]+" = inl lx
    /\ forall src : scripted,
        same_draws ([2; 4; 2; 7] : scripted) src ->
        fst (Legacy.Generate lx (Some src))
        = fst (Generate {| re := re_digits_plus;
                           source := Some ([2; 4; 2; 7] : scripted);
                           limit := defaultLimit |}).
Proof.
  apply (Generate_agrees_with_Legacy scripted scripted unit
           (fun _ => inl re_digits_plus) [2; 4; 2; 7] "[0-9]+").
  reflexivity.
Defined.

(** ** Termination: a static bound on the walk *)

Section Work.

Context {S : Type} `{Source S}.
Hypothesis contract : Int63_contract S.

Notation "'ncalls' st" := (Z.of_nat (calls st)) (at level 10, st at level 9).

Lemma countOf_calls (x : Xeger S) o mn mx st :
  calls (snd (countOf x o mn mx st)) = calls st.
Proof.
  destruct o; simpl; try reflexivity; try apply randInt_calls;
    unfold bind;
    match goal with
    | |- context [randInt ?x ?n ?st] =>
        pose proof (randInt_calls x n st) as Hc;
        destruct (randInt x n st) as [[a|p] st1]; simpl in *; exact Hc
    end.
Qed.

Lemma classSum_state (rs : list rune) :
  forall sum (st : St S), snd (classSum rs sum st) = st.
Proof.
  induction rs as [rs IH] using (well_founded_induction
    (Wf_nat.well_founded_ltof _ (@List.length rune))).
  intros sum st. destruct rs as [|lo [|hi rest]]; simpl; try reflexivity.
  apply IH. unfold Wf_nat.ltof. simpl. lia.
Qed.

Lemma classPick_state (rs : list rune) :
  forall i (st : St S), snd (classPick rs i st) = st.
Proof.
  induction rs as [rs IH] using (well_founded_induction
    (Wf_nat.well_founded_ltof _ (@List.length rune))).
  intros i st. destruct rs as [|lo [|hi rest]]; simpl; try reflexivity.
  destruct (i <=? int32 (hi - lo)); [reflexivity|].
  apply IH. unfold Wf_nat.ltof. simpl. lia.
Qed.

Lemma index_state (s : gostring) (i : Z) (st : St S) :
  snd (index s i st) = st.
Proof.
  unfold index. destruct ((i <? 0) || (len s <=? i)); [reflexivity|].
  destruct (nth_error s (Z.to_nat i)); reflexivity.
Qed.

(** The count of a quantifier of a parsed tree is at most [rep_bound]. *)
Lemma countOf_rep_bound (x : Xeger S) o mn mx st count st' :
  0 < limit x <= max_int ->
  (o = OpRepeat ->
   0 <= mn <= 1000 /\ (mx = -1 \/ (mn <= mx /\ mx <= 1000))) ->
  quantifier o = true ->
  countOf x o mn mx st = (Val count, st') ->
  count <= rep_bound (limit x) o mn mx.
Proof.
  intros Hl Hp Hq Hcount.
  destruct o; try discriminate.
  - pose proof (countOf_bounds x _ mn mx st count st' contract Hl Hcount). simpl in *. lia.
  - pose proof (countOf_bounds x _ mn mx st count st' contract Hl Hcount). simpl in *. lia.
  - pose proof (countOf_bounds x _ mn mx st count st' contract Hl Hcount). simpl in *. lia.
  - destruct (Hp eq_refl) as [Hmn Hmx].
    pose proof (countOf_bounds x _ mn mx st count st' contract Hl Hcount) as [Hu Hb].
    unfold rep_bound.
    destruct Hmx as [->|[Hlo Hhi]].
    + rewrite Z.eqb_refl.
      destruct (Z_le_gt_dec mn (limit x)) as [Hle|Hgt]; [lia|].
      simpl in Hcount. apply bind_val in Hcount.
      destruct Hcount as (n & st1 & Hr & Hret).
      apply ret_val in Hret. destruct Hret as [-> _].
      destruct (randInt_inv _ _ _ _ _ contract
                  (int_is_int (int (limit x - mn) + 1)) Hr)
        as (s & _ & _ & _ & Hrb & _).
      rewrite (int_id (limit x - mn)) in Hrb by int_range.
      rewrite int_id in Hrb by int_range.
      rewrite int_id by int_range. lia.
    + assert (Hne : mx <> -1) by lia.
      apply Z.eqb_neq in Hne. rewrite Hne.
      apply Z.eqb_neq in Hne.
      assert (mn <= count <= mx) by (apply Hb; [assumption|lia|int_range]).
      lia.
Qed.

Lemma sum_nonneg (B : Regexp -> Z) (subs : list Regexp) :
  Forall (fun c => 0 <= B c) subs -> 0 <= fold_right Z.add 0 (map B subs).
Proof. induction 1; simpl; lia. Qed.

Section Children.

Variable g : Regexp -> Gen S gostring.
Variable B : Regexp -> Z.

Local Abbreviation within := (within g B).

Lemma within_nonneg subs : Forall within subs -> Forall (fun c => 0 <= B c) subs.
Proof. apply Forall_impl. intros c [Hc _]. exact Hc. Qed.

Lemma rangeSub_calls (subs : list Regexp) :
  Forall within subs ->
  forall b st,
    ncalls (snd (rangeSub g subs b st))
    <= ncalls st + fold_right Z.add 0 (map B subs).
Proof.
  induction 1 as [|c rest [Hc0 Hc] Hrest IH]; intros b st; simpl; [lia|].
  pose proof (sum_nonneg B rest (within_nonneg rest Hrest)) as Hsum.
  unfold bind. specialize (Hc st).
  destruct (g c st) as [[s|p] st1]; simpl in *.
  - specialize (IH (b ++ s) st1). lia.
  - lia.
Qed.

Lemma repeatSub_calls (subs : list Regexp) (n : nat) :
  Forall within subs ->
  forall b st,
    ncalls (snd (repeatSub g subs n b st))
    <= ncalls st + Z.of_nat n * fold_right Z.add 0 (map B subs).
Proof.
  intros Hs.
  pose proof (sum_nonneg B subs (within_nonneg subs Hs)) as Hsum.
  induction n as [|n IH]; intros b st.
  - simpl. lia.
  - cbn [repeatSub]. unfold bind. rewrite Nat2Z.inj_succ.
    pose proof (rangeSub_calls subs Hs b st) as Hr.
    destruct (rangeSub g subs b st) as [[b'|p] st1]; cbn [snd] in *.
    + specialize (IH b' st1). nia.
    + nia.
Qed.

Lemma subexpression_calls (subs : list Regexp) (count : Z) :
  Forall within subs ->
  forall st,
    ncalls (snd (subexpression g subs count st))
    <= ncalls st + Z.max 0 count * fold_right Z.add 0 (map B subs).
Proof.
  intros Hs st.
  pose proof (sum_nonneg B subs (within_nonneg subs Hs)) as Hsum.
  unfold subexpression.
  destruct (int (len subs * count) <? 0); cbn [snd raise]; [nia|].
  pose proof (repeatSub_calls subs (Z.to_nat count) Hs [] st) as Hr.
  assert (Hn : Z.of_nat (Z.to_nat count) = Z.max 0 count) by lia.
  rewrite Hn in Hr. exact Hr.
Qed.

Lemma genAt_calls (subs : list Regexp) :
  Forall within subs ->
  forall i st,
    ncalls (snd (genAt g subs i st))
    <= ncalls st + fold_right Z.add 0 (map B subs).
Proof.
  induction 1 as [|c rest [Hc0 Hc] Hrest IH]; intros i st; simpl; [lia|].
  pose proof (sum_nonneg B rest (within_nonneg rest Hrest)) as Hsum.
  destruct i as [|i].
  - specialize (Hc st). lia.
  - specialize (IH i st). lia.
Qed.

End Children.

End Work.

Section WorkBound.

Context {S : Type} `{Source S}.
Hypothesis contract : Int63_contract S.

Notation "'ncalls' st" := (Z.of_nat (calls st)) (at level 10, st at level 9).

Lemma bind_calls {A B} (m : Gen S A) (k : A -> Gen S B) (K : Z) st :
  0 <= K ->
  calls (snd (m st)) = calls st ->
  (forall a st', m st = (Val a, st') -> ncalls (snd (k a st')) <= ncalls st' + K) ->
  ncalls (snd (bind m k st)) <= ncalls st + K.
Proof.
  intros HK Hm Hk. unfold bind.
  destruct (m st) as [[a|p] st'] eqn:Hst; cbn [snd] in *.
  - specialize (Hk a st' eq_refl). lia.
  - lia.
Qed.

Lemma tick_calls {A} (body : Gen S A) (K : Z) st :
  (forall st1, ncalls (snd (body st1)) <= ncalls st1 + K) ->
  ncalls (snd (bind tick (fun _ => body) st)) <= ncalls st + (1 + K).
Proof.
  intros Hb. unfold bind, tick.
  specialize (Hb {| rnd := rnd st; calls := Datatypes.S (calls st) |}).
  cbn [calls] in Hb. lia.
Qed.

Lemma bind_keeps_calls {A B} (m : Gen S A) (k : A -> Gen S B) st :
  calls (snd (m st)) = calls st ->
  (forall a st', calls (snd (k a st')) = calls st') ->
  calls (snd (bind m k st)) = calls st.
Proof.
  intros Hm Hk. unfold bind.
  destruct (m st) as [[a|p] st']; cbn [snd] in *; [rewrite Hk|]; exact Hm.
Qed.

Lemma tick_calls0 {A} (body : Gen S A) st :
  (forall st1, calls (snd (body st1)) = calls st1) ->
  ncalls (snd (bind tick (fun _ => body) st)) <= ncalls st + 1.
Proof.
  intros Hb. unfold bind, tick. rewrite Hb. cbn [calls]. lia.
Qed.

Lemma parsed_children o r mn mx sub (P : Regexp -> Prop) :
  parsed (MkRegexp o r mn mx sub) = true ->
  Forall (fun c => parsed c = true -> P c) sub ->
  Forall P sub.
Proof.
  simpl. intros Hp IH. apply andb_true_iff in Hp. destruct Hp as [_ Hs].
  rewrite forallb_forall in Hs. rewrite Forall_forall in *.
  intros c Hin. apply IH; [assumption|]. apply Hs. assumption.
Qed.

Lemma parsed_repeat r mn mx sub :
  parsed (MkRegexp OpRepeat r mn mx sub) = true ->
  0 <= mn <= 1000 /\ (mx = -1 \/ (mn <= mx /\ mx <= 1000)).
Proof.
  cbn [parsed]. intros Hp.
  rewrite !andb_true_iff, orb_true_iff, andb_true_iff in Hp.
  rewrite !Z.leb_le, Z.eqb_eq in Hp. intuition lia.
Qed.

(** Every walk of a parsed tree stays within [work_bound]. *)
Lemma generateFromRegexp_within (x : Xeger S) :
  0 < limit x <= max_int ->
  forall re, parsed re = true ->
    within (generateFromRegexp x) (work_bound (limit x)) re.
Proof.
  intros Hl re.
  induction re as [o r mn mx sub IH] using Regexp_nested_ind. intros Hp.
  pose proof (parsed_children o r mn mx sub _ Hp IH) as Hw.
  pose proof (sum_nonneg _ sub (within_nonneg _ _ sub Hw)) as Hsum.
  assert (Hrep : quantifier o = true -> 0 <= rep_bound (limit x) o mn mx).
  { destruct o; simpl; try discriminate; intros _; try lia.
    destruct (parsed_repeat r mn mx sub Hp) as [Hmn [->|Hmx]]; simpl; [lia|].
    destruct (mx =? -1); lia. }
  split.
  - cbn [work_bound].
    set (below := fold_right Z.add 0 (map (work_bound (limit x)) sub)) in *.
    destruct o; try lia; specialize (Hrep eq_refl); nia.
  - intros st. cbn [generateFromRegexp work_bound].
    set (below := fold_right Z.add 0 (map (work_bound (limit x)) sub)) in *.
    assert (Hquant : quantifier o = true ->
      forall st1,
        ncalls (snd (bind (countOf x o mn mx)
                       (fun count => subexpression (generateFromRegexp x) sub count) st1))
        <= ncalls st1 + rep_bound (limit x) o mn mx * below).
    { intros Hq st1. specialize (Hrep Hq).
      apply bind_calls; [nia|apply countOf_calls|].
      intros count st' Hcount.
      assert (Hcb : count <= rep_bound (limit x) o mn mx).
      { apply (countOf_rep_bound contract x o mn mx st1 count st' Hl); try assumption.
        intros ->. exact (parsed_repeat r mn mx sub Hp). }
      pose proof (subexpression_calls _ _ sub count Hw st') as Hsub.
      fold below in Hsub. nia. }
    assert (Hone : forall st1,
        ncalls (snd (subexpression (generateFromRegexp x) sub 1 st1))
        <= ncalls st1 + below).
    { intros st1.
      pose proof (subexpression_calls _ _ sub 1 Hw st1) as Hsub.
      fold below in Hsub. lia. }
    destruct o;
      try (apply tick_calls0; intros st1; reflexivity);
      try (apply tick_calls; apply Hquant; reflexivity);
      try (apply tick_calls; exact Hone).
    + (* OpCharClass *)
      apply tick_calls0. intros st1.
      apply bind_keeps_calls; [rewrite classSum_state; reflexivity|].
      intros sum st2.
      apply bind_keeps_calls; [apply randInt_calls|].
      intros n st3. rewrite classPick_state. reflexivity.
    + (* OpAnyCharNotNL *)
      apply tick_calls0. intros st1.
      apply bind_keeps_calls; [apply randInt_calls|]. intros i st2.
      apply bind_keeps_calls; [rewrite index_state; reflexivity|].
      intros c st3. reflexivity.
    + (* OpAnyChar *)
      apply tick_calls0. intros st1.
      apply bind_keeps_calls; [apply randInt_calls|]. intros i st2.
      apply bind_keeps_calls; [rewrite index_state; reflexivity|].
      intros c st3. reflexivity.
    + (* OpAlternate *)
      apply tick_calls. intros st1.
      apply bind_calls; [lia|apply randInt_calls|].
      intros i st2 _.
      destruct (i <? 0); [cbn [snd raise]; lia|].
      pose proof (genAt_calls _ _ sub Hw (Z.to_nat i) st2) as Hg.
      fold below in Hg. exact Hg.
Qed.

End WorkBound.

(** C8.  For every tree of the parser, every source within its contract
    and every cap in [1, max_int], [Generate] returns (a string or a
    panic) after at most [work_bound] invocations of [generateFromRegexp]:
    a bound fixed by the tree and the cap alone, whatever the source
    draws. *)
Theorem Generate_terminates_within_bound
  (S : Type) `{Source S} (x : Xeger S) :
  Int63_contract S ->
  0 < limit x <= max_int ->
  parsed (re x) = true ->
  exists out st',
    Generate x = (out, st')
    /\ Z.of_nat (calls st') <= work_bound (limit x) (re x).
Proof.
  intros Hc Hl Hp.
  destruct (generateFromRegexp_within Hc x Hl (re x) Hp) as [_ Hw].
  specialize (Hw {| rnd := source x; calls := 0 |}).
  unfold Generate.
  destruct (generateFromRegexp x (re x) {| rnd := source x; calls := 0 |})
    as [out st'].
  exists out, st'. split; [reflexivity|]. cbn [snd calls] in Hw. lia.
Qed.

Lemma Generate_terminates_within_bound_witness :
  exists out st',
    Generate {| re := re_digits_plus;
                source := Some ([2; 4; 2; 7] : scripted); limit := 10 |}
    = (out, st')
    /\ Z.of_nat (calls st') <= work_bound 10 re_digits_plus.
Proof.
  apply (Generate_terminates_within_bound scripted
           {| re := re_digits_plus; source := Some [2; 4; 2; 7]; limit := 10 |}).
  - exact scripted_contract.
  - simpl. unfold max_int. lia.
  - reflexivity.
Defined.

(** ** Character classes *)

Lemma pairs_ind (P : list rune -> Prop) :
  P [] -> (forall a, P [a]) ->
  (forall lo hi rest, P rest -> P (lo :: hi :: rest)) ->
  forall rs, P rs.
Proof.
  intros Hnil Hone Hpair.
  assert (Hboth : forall rs, P rs /\ forall a, P (a :: rs)).
  { induction rs as [|b rs [IH1 IH2]]; split.
    - exact Hnil.
    - exact Hone.
    - apply IH2.
    - intros a. apply Hpair. exact IH1. }
  intros rs. apply Hboth.
Qed.

Lemma ranges_from_pair lo hi rest above :
  ranges_from (lo :: hi :: rest) above = true ->
  above <= lo /\ lo <= hi /\ hi <= MaxRune /\ ranges_from rest (hi + 1) = true.
Proof.
  cbn [ranges_from]. rewrite !andb_true_iff, !Z.leb_le. tauto.
Qed.

Lemma class_size_bound rs :
  forall above, ranges_from rs above = true -> above <= MaxRune + 1 ->
    0 <= class_size rs <= MaxRune + 1 - above.
Proof.
  induction rs as [|a|lo hi rest IH] using pairs_ind; intros above Hr Ha.
  - cbn [class_size]. lia.
  - discriminate.
  - apply ranges_from_pair in Hr. destruct Hr as (H1 & H2 & H3 & Hrest).
    specialize (IH (hi + 1) Hrest). cbn [class_size]. lia.
Qed.

Lemma class_size_pos rs above :
  ranges_from rs above = true -> rs <> [] -> above <= MaxRune + 1 ->
  0 < class_size rs.
Proof.
  destruct rs as [|lo [|hi rest]]; intros Hr Hne Ha; try congruence; try discriminate.
  apply ranges_from_pair in Hr. destruct Hr as (H1 & H2 & H3 & Hrest).
  pose proof (class_size_bound rest (hi + 1) Hrest). cbn [class_size]. lia.
Qed.

Section ClassWalk.

Context {S : Type} `{Source S}.

(** The first loop computes [class_size]. *)
Lemma classSum_ok rs :
  forall above acc (st : St S),
    ranges_from rs above = true -> 0 <= above <= MaxRune + 1 ->
    0 <= acc <= above ->
    classSum rs acc st = (Val (acc + class_size rs), st).
Proof.
  induction rs as [|a|lo hi rest IH] using pairs_ind;
    intros above acc st Hr Ha Hacc.
  - simpl. unfold ret. f_equal. f_equal. lia.
  - discriminate.
  - apply ranges_from_pair in Hr. destruct Hr as (H1 & H2 & H3 & Hrest).
    unfold MaxRune in *. cbn [classSum class_size].
    rewrite int32_id by int_range.
    rewrite (int_id (hi - lo)) by int_range.
    rewrite (int_id (1 + (hi - lo))) by int_range.
    rewrite int_id by int_range.
    rewrite (IH (hi + 1)); try assumption; try lia.
    f_equal. f_equal. lia.
Qed.

(** The second loop computes [class_nth], and the code point it reaches
    is in the class. *)
Lemma classPick_ok rs :
  forall above i (st : St S),
    ranges_from rs above = true -> 0 <= above <= MaxRune + 1 ->
    0 <= i < class_size rs ->
    exists c, class_nth rs i = Some c /\ in_class rs c = true
              /\ above <= c <= MaxRune
              /\ classPick rs i st = (Val (string_of_rune c), st).
Proof.
  induction rs as [|a|lo hi rest IH] using pairs_ind;
    intros above i st Hr Ha Hi.
  - simpl in Hi. lia.
  - discriminate.
  - apply ranges_from_pair in Hr. destruct Hr as (H1 & H2 & H3 & Hrest).
    pose proof (class_size_bound rest (hi + 1) Hrest) as Hsz.
    unfold MaxRune in *. cbn [class_size] in Hi.
    cbn [classPick class_nth in_class].
    rewrite (int32_id (hi - lo)) by int_range.
    destruct (Z.leb_spec i (hi - lo)) as [Hle|Hgt].
    + exists (lo + i).
      destruct (Z.ltb_spec i (hi - lo + 1)); [|lia].
      rewrite int32_id by int_range.
      split; [reflexivity|]. split; [|split; [lia|reflexivity]].
      apply orb_true_iff. left. apply andb_true_iff.
      rewrite !Z.leb_le. lia.
    + destruct (Z.ltb_spec i (hi - lo + 1)); [lia|].
      rewrite (int32_id (hi - lo + 1)) by int_range.
      rewrite int32_id by int_range.
      destruct (IH (hi + 1) (i - (hi - lo + 1)) st Hrest) as (c & Hn & Hin & Hc & Hp);
        try lia.
      exists c. split; [assumption|]. split; [|split; [lia|assumption]].
      rewrite Hin. apply orb_true_r.
Qed.

End ClassWalk.

(** The walk reaches every code point of the class, each from one
    index. *)
Lemma class_nth_range rs :
  forall above i c,
    ranges_from rs above = true -> 0 <= i ->
    class_nth rs i = Some c -> above <= c /\ in_class rs c = true.
Proof.
  induction rs as [|a|lo hi rest IH] using pairs_ind; intros above i c Hr Hi Hn.
  - discriminate.
  - discriminate.
  - apply ranges_from_pair in Hr. destruct Hr as (H1 & H2 & H3 & Hrest).
    cbn [class_nth in_class] in *.
    destruct (Z.ltb_spec i (hi - lo + 1)).
    + inversion Hn; subst. split; [lia|].
      apply orb_true_iff. left. apply andb_true_iff. rewrite !Z.leb_le. lia.
    + assert (Hi' : 0 <= i - (hi - lo + 1)) by lia.
      destruct (IH (hi + 1) _ c Hrest Hi' Hn) as [Hc Hin].
      split; [lia|]. rewrite Hin. apply orb_true_r.
Qed.

Lemma class_nth_inj rs :
  forall above i j c,
    ranges_from rs above = true -> 0 <= i -> 0 <= j ->
    class_nth rs i = Some c -> class_nth rs j = Some c -> i = j.
Proof.
  induction rs as [|a|lo hi rest IH] using pairs_ind;
    intros above i j c Hr Hi Hj Hni Hnj.
  - discriminate.
  - discriminate.
  - apply ranges_from_pair in Hr. destruct Hr as (H1 & H2 & H3 & Hrest).
    cbn [class_nth] in *.
    destruct (Z.ltb_spec i (hi - lo + 1)); destruct (Z.ltb_spec j (hi - lo + 1)).
    + inversion Hni; inversion Hnj; lia.
    + inversion Hni; subst.
      assert (Hj' : 0 <= j - (hi - lo + 1)) by lia.
      destruct (class_nth_range rest (hi + 1) _ _ Hrest Hj' Hnj). lia.
    + inversion Hnj; subst.
      assert (Hi' : 0 <= i - (hi - lo + 1)) by lia.
      destruct (class_nth_range rest (hi + 1) _ _ Hrest Hi' Hni). lia.
    + assert (i - (hi - lo + 1) = j - (hi - lo + 1)); [|lia].
      apply (IH (hi + 1) _ _ c Hrest); try assumption; lia.
Qed.

Lemma class_nth_surj rs :
  forall above c,
    ranges_from rs above = true -> in_class rs c = true ->
    exists i, 0 <= i < class_size rs /\ class_nth rs i = Some c.
Proof.
  induction rs as [|a|lo hi rest IH] using pairs_ind; intros above c Hr Hin.
  - discriminate.
  - discriminate.
  - apply ranges_from_pair in Hr. destruct Hr as (H1 & H2 & H3 & Hrest).
    pose proof (class_size_bound rest (hi + 1) Hrest) as Hsz.
    cbn [in_class class_nth class_size] in *.
    apply orb_true_iff in Hin. destruct Hin as [Hin|Hin].
    + apply andb_true_iff in Hin. rewrite !Z.leb_le in Hin.
      exists (c - lo). split; [unfold MaxRune in *; lia|].
      destruct (Z.ltb_spec (c - lo) (hi - lo + 1)); [|lia].
      f_equal. lia.
    + destruct (IH (hi + 1) c Hrest Hin) as (i & Hi & Hn).
      exists (i + (hi - lo + 1)). split; [unfold MaxRune in *; lia|].
      destruct (Z.ltb_spec (i + (hi - lo + 1)) (hi - lo + 1)); [lia|].
      rewrite <- Hn. f_equal. lia.
Qed.

Lemma scalar_in_class_valid rs :
  forall above c,
    ranges_from rs above = true -> 0 <= above ->
    scalar_ranges rs = true -> in_class rs c = true ->
    valid_rune c = true.
Proof.
  induction rs as [|a|lo hi rest IH] using pairs_ind; intros above c Hr Ha Hs Hin.
  - discriminate.
  - discriminate.
  - apply ranges_from_pair in Hr. destruct Hr as (H1 & H2 & H3 & Hrest).
    cbn [scalar_ranges in_class] in *.
    apply andb_true_iff in Hs. destruct Hs as [Hs Hs'].
    apply orb_true_iff in Hin. destruct Hin as [Hin|Hin].
    + apply andb_true_iff in Hin. rewrite !Z.leb_le in Hin.
      apply orb_true_iff in Hs. rewrite !Z.ltb_lt in Hs.
      unfold valid_rune, surrogateMin, surrogateMax in *.
      apply andb_true_iff. split.
      * apply andb_true_iff. rewrite !Z.leb_le. lia.
      * apply negb_true_iff. apply andb_false_iff. rewrite !Z.leb_gt. lia.
    + apply (IH (hi + 1) c Hrest); try assumption; lia.
Qed.


(** What a class node generates: the code point [class_nth] reaches from
    the value drawn, reduced modulo [class_size], through [string(rune)]. *)
Lemma generate_class
  (S : Type) `{Source S} (x : Xeger S) r mn mx sub (s : S) (n : nat) :
  ranges_ok r = true -> r <> [] ->
  0 <= fst (Int63 s) < 2 ^ 63 ->
  exists c,
    class_nth r (fst (Int63 s) mod class_size r) = Some c
    /\ in_class r c = true
    /\ generateFromRegexp x (MkRegexp OpCharClass r mn mx sub)
         {| rnd := Some s; calls := n |}
       = (Val (string_of_rune c),
          {| rnd := Some (snd (Int63 s)); calls := Datatypes.S n |}).
Proof.
  intros Hr Hne Hv. unfold ranges_ok in Hr.
  pose proof (class_size_bound r 0 Hr) as Hsz.
  pose proof (class_size_pos r 0 Hr Hne) as Hpos.
  unfold MaxRune in *.
  assert (Hmod : 0 <= fst (Int63 s) mod class_size r < class_size r)
    by (apply Z.mod_pos_bound; lia).
  destruct (classPick_ok r 0 (fst (Int63 s) mod class_size r)
              {| rnd := Some (snd (Int63 s)); calls := Datatypes.S n |} Hr)
    as (c & Hn & Hin & _ & Hp); [unfold MaxRune; lia|lia|].
  exists c. split; [exact Hn|]. split; [exact Hin|].
  cbn [generateFromRegexp]. unfold bind at 1. unfold tick.
  unfold bind at 1. cbn [rnd calls].
  rewrite (classSum_ok r 0 0) by (try assumption; unfold MaxRune; lia).
  unfold bind. rewrite Z.add_0_l.
  rewrite (randInt_mod x (class_size r) s (Datatypes.S n))
    by (try exact Hv; int_range). rewrite int32_id by int_range. exact Hp.
Qed.

(** C3, as amended.  For a class node whose pairs are well formed, not
    empty and hold scalar values only, and a draw within the contract:
    the first loop computes [sum], the total of [high - low + 1]; the
    index is the value drawn modulo [sum]; the node emits the code point
    the walk of the pairs reaches from that index, which lies in the
    class; and the walk maps the indices of [0, sum) one-to-one onto the
    code points of the class, so that each is as likely as the index
    that reaches it. *)
Theorem charclass_choice
  (S : Type) `{Source S} (x : Xeger S) (r : list rune) (mn mx : Z)
  (sub : list Regexp) (s : S) (n : nat) :
  ranges_ok r = true -> r <> [] -> scalar_ranges r = true ->
  0 <= fst (Int63 s) < 2 ^ 63 ->
  classSum r 0 {| rnd := Some s; calls := n |}
    = (Val (class_size r), {| rnd := Some s; calls := n |})
  /\ 0 < class_size r
  /\ (exists c,
         class_nth r (fst (Int63 s) mod class_size r) = Some c
         /\ in_class r c = true
         /\ generateFromRegexp x (MkRegexp OpCharClass r mn mx sub)
              {| rnd := Some s; calls := n |}
            = (Val [c], {| rnd := Some (snd (Int63 s)); calls := Datatypes.S n |}))
  /\ (forall c, in_class r c = true ->
        exists i, 0 <= i < class_size r /\ class_nth r i = Some c
                  /\ forall j, 0 <= j -> class_nth r j = Some c -> j = i).
Proof.
  intros Hr Hne Hs Hv. unfold ranges_ok in Hr.
  split; [|split; [|split]].
  - rewrite (classSum_ok r 0 0) by (try assumption; unfold MaxRune; lia).
    reflexivity.
  - apply (class_size_pos r 0 Hr Hne). unfold MaxRune. lia.
  - destruct (generate_class S x r mn mx sub s n Hr Hne Hv) as (c & Hn & Hin & Hg).
    exists c. split; [exact Hn|]. split; [exact Hin|].
    rewrite Hg. unfold string_of_rune.
    rewrite (scalar_in_class_valid r 0 c Hr (Z.le_refl 0) Hs Hin). reflexivity.
  - intros c Hin.
    destruct (class_nth_surj r 0 c Hr Hin) as (i & Hi & Hn).
    exists i. split; [exact Hi|]. split; [exact Hn|].
    intros j Hj Hnj. apply (class_nth_inj r 0 j i c Hr); try assumption; lia.
Qed.

Lemma charclass_choice_witness :
  classSum [48; 57] 0 {| rnd := Some ([14] : scripted); calls := 0 |}
    = (Val (class_size [48; 57]), {| rnd := Some [14]; calls := 0 |})
  /\ 0 < class_size [48; 57]
  /\ (exists c,
         class_nth [48; 57] (fst (Int63 ([14] : scripted)) mod class_size [48; 57]) = Some c
         /\ in_class [48; 57] c = true
         /\ generateFromRegexp {| re := re_digits_plus; source := Some [14]; limit := 10 |}
              (MkRegexp OpCharClass [48; 57] 0 0 [])
              {| rnd := Some [14]; calls := 0 |}
            = (Val [c], {| rnd := Some (snd (Int63 ([14] : scripted))); calls := 1 |}))
  /\ (forall c, in_class [48; 57] c = true ->
        exists i, 0 <= i < class_size [48; 57] /\ class_nth [48; 57] i = Some c
                  /\ forall j, 0 <= j -> class_nth [48; 57] j = Some c -> j = i).
Proof.
  apply (charclass_choice scripted
           {| re := re_digits_plus; source := Some [14]; limit := 10 |}
           [48; 57] 0 0 [] [14] 0%nat).
  - reflexivity.
  - discriminate.
  - reflexivity.
  - change (fst (Int63 ([14] : scripted))) with 14. lia.
Defined.

(** C3 as stated fails: on [[\x{D800}-\x{DFFF}]], a class with one pair,
    the draw 5 reaches the index 5, the surrogate half U+D805, and the
    node emits U+FFFD, which is in no pair of the class. *)
Lemma charclass_emits_outside_class :
  ~ (exists c,
        fst (Generate {| re := re_surrogates;
                         source := Some ([5] : scripted); limit := 10 |})
        = Val [c]
        /\ in_class (Rune re_surrogates) c = true).
Proof.
  intros (c & Hg & Hin). vm_compute in Hg. inversion Hg; subst c.
  vm_compute in Hin. discriminate.
Qed.

(** C9, the failing run.  On [[\x{D7FF}-\x{E000}]], a class with one pair
    of 2050 code points, two of which (the first and the last) a string
    can hold: every draw within the contract that leaves an index in
    [1, 2048] makes the range-walking loop return U+FFFD, a character
    outside the pair, although U+D7FF is in it. *)
Theorem charclass_around_surrogates_emits_RuneError
  (S : Type) `{Source S} (s : S) (cap : Z) :
  0 <= fst (Int63 s) < 2 ^ 63 ->
  1 <= fst (Int63 s) mod 2050 <= 2048 ->
  fst (Generate {| re := re_around_surrogates; source := Some s; limit := cap |})
  = Val [RuneError]
  /\ in_class (Rune re_around_surrogates) RuneError = false
  /\ in_class (Rune re_around_surrogates) 55295 = true.
Proof.
  intros Hv Hi. split; [|split; reflexivity].
  destruct (generate_class S
              {| re := re_around_surrogates; source := Some s; limit := cap |}
              [55295; 57344] 0 0 [] s 0%nat) as (c & Hn & Hin & Hg);
    [reflexivity|discriminate|exact Hv|].
  change (MkRegexp OpCharClass [55295; 57344] 0 0 []) with re_around_surrogates in Hg.
  unfold Generate. cbn [re source]. rewrite Hg. cbn [fst].
  change (class_size [55295; 57344]) with 2050 in Hn.
  cbn [class_nth] in Hn.
  destruct (Z.ltb_spec (fst (Int63 s) mod 2050) (57344 - 55295 + 1)); [|lia].
  assert (Hc : c = 55295 + fst (Int63 s) mod 2050) by congruence.
  rewrite Hc. unfold string_of_rune.
  assert (Hinv : valid_rune (55295 + fst (Int63 s) mod 2050) = false).
  { unfold valid_rune, surrogateMin, surrogateMax.
    apply andb_false_iff. right. apply negb_false_iff.
    apply andb_true_iff. rewrite !Z.leb_le. lia. }
  rewrite Hinv. reflexivity.
Qed.

Lemma charclass_around_surrogates_emits_RuneError_witness :
  fst (Generate {| re := re_around_surrogates;
                   source := Some ([1] : scripted); limit := 10 |})
  = Val [RuneError]
  /\ in_class (Rune re_around_surrogates) RuneError = false
  /\ in_class (Rune re_around_surrogates) 55295 = true.
Proof.
  apply (charclass_around_surrogates_emits_RuneError scripted [1] 10).
  - change (fst (Int63 ([1] : scripted))) with 1. lia.
  - change (fst (Int63 ([1] : scripted))) with 1.
    change (1 mod 2050) with 1. lia.
Defined.

(** ** Match soundness *)

Lemma printableNotNL_no_newline (c : rune) :
  In c printableNotNL -> c <> 10.
Proof.
  assert (Hall : forallb (fun c => negb (c =? 10)) printableNotNL = true)
    by (vm_compute; reflexivity).
  rewrite forallb_forall in Hall. intros Hin Heq.
  specialize (Hall c Hin). apply negb_true_iff in Hall.
  apply Z.eqb_neq in Hall. contradiction.
Qed.

Section Soundness.

Context {S : Type} `{Source S}.
Hypothesis contract : Int63_contract S.

Lemma index_val (t : gostring) (i : Z) (st : St S) c st' :
  index t i st = (Val c, st') -> In c t.
Proof.
  unfold index. destruct ((i <? 0) || (len t <=? i)); [discriminate|].
  destruct (nth_error t (Z.to_nat i)) as [d|] eqn:Hn; [|discriminate].
  intros Heq. inversion Heq; subst. eapply nth_error_In. exact Hn.
Qed.

Section Children.

Variable g : Regexp -> Gen S gostring.



Lemma subexpression_val (subs : list Regexp) (count : Z) st out st' :
  subexpression g subs count st = (Val out, st') ->
  repeatSub g subs (Z.to_nat count) [] st = (Val out, st').
Proof.
  unfold subexpression.
  destruct (int (len subs * count) <? 0); [discriminate|trivial].
Qed.

Lemma genAt_val (subs : list Regexp) :
  forall i st s st',
    genAt g subs i st = (Val s, st') ->
    exists c, In c subs /\ g c st = (Val s, st').
Proof.
  induction subs as [|c rest IH]; intros i st s st' Hrun; [discriminate|].
  destruct i as [|i]; cbn [genAt] in Hrun.
  - exists c. split; [left; reflexivity|exact Hrun].
  - destruct (IH _ _ _ _ Hrun) as (d & Hin & Hd).
    exists d. split; [right; exact Hin|exact Hd].
Qed.

End Children.





End Soundness.





(** * Further properties *)

(** ** Options *)

Section OptionFacts.

Context {S : Type} `{Source S}.

Lemma fold_apply_limit_kept (opts : list Option) (x : Xeger S) :
  forallb is_WithSource opts = true ->
  limit (fold_left (fun x o => apply o x) opts x) = limit x.
Proof.
  revert x. induction opts as [|o opts IH]; intros x Hs; [reflexivity|].
  cbn [forallb] in Hs. apply andb_true_iff in Hs. destruct Hs as [Ho Hs].
  cbn [fold_left]. rewrite (IH _ Hs). destruct o; [reflexivity|discriminate].
Qed.

Lemma fold_apply_source_kept (opts : list Option) (x : Xeger S) :
  forallb is_WithLimit opts = true ->
  source (fold_left (fun x o => apply o x) opts x) = source x.
Proof.
  revert x. induction opts as [|o opts IH]; intros x Hs; [reflexivity|].
  cbn [forallb] in Hs. apply andb_true_iff in Hs. destruct Hs as [Ho Hs].
  cbn [fold_left]. rewrite (IH _ Hs). destruct o; [discriminate|reflexivity].
Qed.

Variable Error : Type.
Variable Parse : string -> Regexp + Error.
Variable defaultSource : S.

Lemma NewXeger_fields regex opts r :
  Parse regex = inl r ->
  exists x,
    NewXeger Error Parse defaultSource regex opts = inl x
    /\ limit x =
         (let l := limit (fold_left (fun x o => apply o x) opts
                            {| re := r; source := None; limit := 0 |}) in
          if l <=? 0 then defaultLimit else l)
    /\ source x =
         Some (match source (fold_left (fun x o => apply o x) opts
                               {| re := r; source := None; limit := 0 |}) with
               | Some s => s
               | None => defaultSource
               end).
Proof.
  intros Hp. unfold NewXeger. rewrite Hp.
  set (x0 := fold_left _ opts _).
  eexists. split; [reflexivity|].
  destruct (source x0) as [s|] eqn:Hs; cbn [limit source];
    destruct (limit x0 <=? 0) eqn:Hl; cbn [limit source];
    rewrite ?Hs, ?Hl; split; reflexivity.
Qed.

End OptionFacts.

(** X1.  The limit of the generator [NewXeger] builds is decided by the
    last [WithLimit] option: its value when positive and 10 otherwise,
    whatever the options before it were (an earlier positive limit is not
    kept); with no [WithLimit] option the limit is 10.  [WithSource]
    options do not touch it. *)
Theorem NewXeger_limit_last_wins
  (S : Type) `{Source S} (Error : Type) (Parse : string -> Regexp + Error)
  (defaultSource : S) (regex : string) (r : Regexp) :
  Parse regex = inl r ->
  (forall opts, forallb is_WithSource opts = true ->
     exists x, NewXeger Error Parse defaultSource regex opts = inl x
               /\ limit x = defaultLimit)
  /\ (forall before n after, forallb is_WithSource after = true ->
       exists x,
         NewXeger Error Parse defaultSource regex (before ++ WithLimit n :: after)
         = inl x
         /\ limit x = (if n <=? 0 then defaultLimit else n)).
Proof.
  intros Hp. split.
  - intros opts Hs.
    destruct (NewXeger_fields Error Parse defaultSource regex opts r Hp)
      as (x & Hx & Hl & _).
    exists x. split; [exact Hx|]. rewrite Hl.
    rewrite (fold_apply_limit_kept opts _ Hs). reflexivity.
  - intros before n after Hs.
    destruct (NewXeger_fields Error Parse defaultSource regex
                (before ++ WithLimit n :: after) r Hp) as (x & Hx & Hl & _).
    exists x. split; [exact Hx|]. rewrite Hl.
    rewrite fold_left_app. cbn [fold_left].
    rewrite (fold_apply_limit_kept after _ Hs). reflexivity.
Qed.

Lemma NewXeger_limit_last_wins_witness :
  (forall opts, forallb is_WithSource opts = true ->
     exists x, NewXeger unit (fun _ => inl re_digits_plus) ([] : scripted)
                 "[0-9]+" opts = inl x
               /\ limit x = defaultLimit)
  /\ (forall before n after, forallb is_WithSource after = true ->
       exists x,
         NewXeger unit (fun _ => inl re_digits_plus) ([] : scripted) "[0-9]+"
           (before ++ WithLimit n :: after) = inl x
         /\ limit x = (if n <=? 0 then defaultLimit else n)).
Proof.
  apply (NewXeger_limit_last_wins scripted unit (fun _ => inl re_digits_plus)
           [] "[0-9]+" re_digits_plus).
  reflexivity.
Defined.

(** X2.  The source of the generator [NewXeger] builds is the one of the
    last [WithSource] option, unless that one is nil, and the default
    source otherwise: a nil source never survives construction, and
    [WithLimit] options do not touch the source. *)
Theorem NewXeger_source_last_wins
  (S : Type) `{Source S} (Error : Type) (Parse : string -> Regexp + Error)
  (defaultSource : S) (regex : string) (r : Regexp) :
  Parse regex = inl r ->
  (forall opts, forallb is_WithLimit opts = true ->
     exists x, NewXeger Error Parse defaultSource regex opts = inl x
               /\ source x = Some defaultSource)
  /\ (forall before s after, forallb is_WithLimit after = true ->
       exists x,
         NewXeger Error Parse defaultSource regex (before ++ WithSource s :: after)
         = inl x
         /\ source x = Some (match s with
                             | Some given => given
                             | None => defaultSource
                             end)).
Proof.
  intros Hp. split.
  - intros opts Hs.
    destruct (NewXeger_fields Error Parse defaultSource regex opts r Hp)
      as (x & Hx & _ & Hsrc).
    exists x. split; [exact Hx|]. rewrite Hsrc.
    rewrite (fold_apply_source_kept opts _ Hs). reflexivity.
  - intros before s after Hs.
    destruct (NewXeger_fields Error Parse defaultSource regex
                (before ++ WithSource s :: after) r Hp) as (x & Hx & _ & Hsrc).
    exists x. split; [exact Hx|]. rewrite Hsrc.
    rewrite fold_left_app. cbn [fold_left].
    rewrite (fold_apply_source_kept after _ Hs). reflexivity.
Qed.

Lemma NewXeger_source_last_wins_witness :
  (forall opts, forallb is_WithLimit opts = true ->
     exists x, NewXeger unit (fun _ => inl re_digits_plus) ([9] : scripted)
                 "[0-9]+" opts = inl x
               /\ source x = Some [9])
  /\ (forall before s after, forallb is_WithLimit after = true ->
       exists x,
         NewXeger unit (fun _ => inl re_digits_plus) ([9] : scripted) "[0-9]+"
           (before ++ WithSource s :: after) = inl x
         /\ source x = Some (match s with
                             | Some given => given
                             | None => [9]
                             end)).
Proof.
  apply (NewXeger_source_last_wins scripted unit (fun _ => inl re_digits_plus)
           [9] "[0-9]+" re_digits_plus).
  reflexivity.
Defined.

(** X3.  [NewXeger] fails exactly when the parser does, with the parser's
    error and whatever the options; when the parser succeeds it returns a
    generator that holds the parsed tree, a source that is not nil and a
    positive limit. *)
Theorem NewXeger_result
  (S : Type) `{Source S} (Error : Type) (Parse : string -> Regexp + Error)
  (defaultSource : S) (regex : string) (opts : list Option) :
  match Parse regex with
  | inr err => NewXeger Error Parse defaultSource regex opts = inr err
  | inl r =>
      exists x, NewXeger Error Parse defaultSource regex opts = inl x
                /\ re x = r /\ source x <> None /\ 0 < limit x
  end.
Proof.
  destruct (Parse regex) as [r|err] eqn:Hp.
  - apply NewXeger_ok. exact Hp.
  - apply NewXeger_error_iff. exact Hp.
Qed.

(** ** The source is never nil during a walk *)

Section KeepsSource.

Context {S : Type} `{Source S}.

Lemma keeps_ret {A} (a : A) : keeps_source (S := S) (ret a).
Proof. intros st Hs. split; [discriminate|exact Hs]. Qed.

Lemma keeps_raise {A} (p : panic) :
  p <> NilDereference -> keeps_source (S := S) (A := A) (raise p).
Proof. intros Hp st Hs. cbn. split; [congruence|exact Hs]. Qed.

Lemma keeps_tick : keeps_source (S := S) tick.
Proof. intros st Hs. split; [discriminate|exact Hs]. Qed.

Lemma keeps_bind {A B} (m : Gen S A) (k : A -> Gen S B) :
  keeps_source m -> (forall a, keeps_source (k a)) -> keeps_source (bind m k).
Proof.
  intros Hm Hk st Hs. unfold bind. destruct (Hm st Hs) as [Hv Hr].
  destruct (m st) as [[a|p] st1]; cbn [fst snd] in *.
  - apply Hk. exact Hr.
  - split; [congruence|exact Hr].
Qed.

Lemma keeps_randInt (x : Xeger S) (n : Z) : keeps_source (randInt x n).
Proof.
  intros st Hs. unfold randInt. destruct (rnd st) as [s|]; [|congruence].
  destruct (Int63 s) as [v s']. destruct (int64 n =? 0); cbn;
    split; discriminate.
Qed.

Lemma keeps_index (t : gostring) (i : Z) : keeps_source (S := S) (index t i).
Proof.
  unfold index. destruct ((i <? 0) || (len t <=? i));
    [apply keeps_raise; discriminate|].
  destruct (nth_error t (Z.to_nat i));
    [apply keeps_ret|apply keeps_raise; discriminate].
Qed.

Lemma keeps_classSum (rs : list rune) :
  forall sum, keeps_source (S := S) (classSum rs sum).
Proof.
  induction rs as [|a|lo hi rest IH] using pairs_ind; intros sum; cbn [classSum].
  - apply keeps_ret.
  - apply keeps_raise. discriminate.
  - apply IH.
Qed.

Lemma keeps_classPick (rs : list rune) :
  forall i, keeps_source (S := S) (classPick rs i).
Proof.
  induction rs as [|a|lo hi rest IH] using pairs_ind; intros i; cbn [classPick].
  - apply keeps_ret.
  - apply keeps_raise. discriminate.
  - destruct (i <=? int32 (hi - lo)); [apply keeps_ret|apply IH].
Qed.

Lemma keeps_countOf (x : Xeger S) o mn mx : keeps_source (countOf x o mn mx).
Proof.
  destruct o; cbn [countOf]; try apply keeps_ret; try apply keeps_randInt;
    (apply keeps_bind; [apply keeps_randInt|intros n; apply keeps_ret]).
Qed.

Section Children.

Variable g : Regexp -> Gen S gostring.

Lemma keeps_rangeSub (subs : list Regexp) :
  Forall (fun c => keeps_source (g c)) subs ->
  forall b, keeps_source (rangeSub g subs b).
Proof.
  induction 1 as [|c rest Hc _ IH]; intros b; cbn [rangeSub].
  - apply keeps_ret.
  - apply keeps_bind; [exact Hc|]. intros s. apply IH.
Qed.

Lemma keeps_repeatSub (subs : list Regexp) (n : nat) :
  Forall (fun c => keeps_source (g c)) subs ->
  forall b, keeps_source (repeatSub g subs n b).
Proof.
  intros Hs. induction n as [|n IH]; intros b; cbn [repeatSub].
  - apply keeps_ret.
  - apply keeps_bind; [apply keeps_rangeSub; exact Hs|]. intros b'. apply IH.
Qed.

Lemma keeps_subexpression (subs : list Regexp) (count : Z) :
  Forall (fun c => keeps_source (g c)) subs ->
  keeps_source (subexpression g subs count).
Proof.
  intros Hs. unfold subexpression.
  destruct (int (len subs * count) <? 0);
    [apply keeps_raise; discriminate|apply keeps_repeatSub; exact Hs].
Qed.

Lemma keeps_genAt (subs : list Regexp) :
  Forall (fun c => keeps_source (g c)) subs ->
  forall i, keeps_source (genAt g subs i).
Proof.
  induction 1 as [|c rest Hc _ IH]; intros i; cbn [genAt].
  - apply keeps_raise. discriminate.
  - destruct i as [|i]; [exact Hc|apply IH].
Qed.

End Children.

Lemma keeps_generateFromRegexp (x : Xeger S) :
  forall re, keeps_source (generateFromRegexp x re).
Proof.
  intros re. induction re as [o r mn mx sub IH] using Regexp_nested_ind.
  cbn [generateFromRegexp]. apply keeps_bind; [apply keeps_tick|]. intros _.
  destruct o; try apply keeps_ret;
    try (apply keeps_subexpression; exact IH);
    try (apply keeps_bind; [apply keeps_countOf|];
         intros c; apply keeps_subexpression; exact IH).
  - apply keeps_bind; [apply keeps_classSum|]. intros sum.
    apply keeps_bind; [apply keeps_randInt|]. intros n. apply keeps_classPick.
  - apply keeps_bind; [apply keeps_randInt|]. intros i.
    apply keeps_bind; [apply keeps_index|]. intros c. apply keeps_ret.
  - apply keeps_bind; [apply keeps_randInt|]. intros i.
    apply keeps_bind; [apply keeps_index|]. intros c. apply keeps_ret.
  - apply keeps_bind; [apply keeps_randInt|]. intros i.
    destruct (i <? 0); [apply keeps_raise; discriminate|].
    apply keeps_genAt. exact IH.
Qed.

End KeepsSource.

(** X4.  On a generator [NewXeger] built, whatever the pattern, the
    options and the values drawn, [Generate] never fails on a nil source,
    and the source it leaves behind is not nil either. *)
Theorem Generate_never_nil_source
  (S : Type) `{Source S} (Error : Type) (Parse : string -> Regexp + Error)
  (defaultSource : S) (regex : string) (opts : list Option) (x : Xeger S) :
  NewXeger Error Parse defaultSource regex opts = inl x ->
  fst (Generate x) <> Panic NilDereference
  /\ rnd (snd (Generate x)) <> None.
Proof.
  intros Hx.
  destruct (NewXeger_inv Error Parse defaultSource regex opts x Hx) as (_ & Hs & _).
  unfold Generate. apply keeps_generateFromRegexp. exact Hs.
Qed.

Lemma Generate_never_nil_source_witness :
  fst (Generate {| re := re_digits_plus; source := Some ([] : scripted);
                   limit := 10 |}) <> Panic NilDereference
  /\ rnd (snd (Generate {| re := re_digits_plus; source := Some ([] : scripted);
                           limit := 10 |})) <> None.
Proof.
  apply (Generate_never_nil_source scripted unit (fun _ => inl re_digits_plus)
           [] "[0-9]+" [WithSource None]).
  reflexivity.
Defined.

(** ** The output holds scalar values only *)

Lemma string_of_rune_scalar (r : rune) : scalar_string (string_of_rune r).
Proof.
  unfold string_of_rune. constructor; [|constructor].
  destruct (valid_rune r) eqn:Hv; [exact Hv|reflexivity].
Qed.

Lemma string_of_runes_scalar (rs : list rune) : scalar_string (string_of_runes rs).
Proof.
  induction rs as [|r rs IH]; [constructor|].
  cbn [string_of_runes flat_map]. apply Forall_app. split.
  - apply string_of_rune_scalar.
  - exact IH.
Qed.

Lemma printable_scalar (c : rune) : In c printable -> valid_rune c = true.
Proof.
  assert (Hall : forallb valid_rune printable = true) by (vm_compute; reflexivity).
  rewrite forallb_forall in Hall. apply Hall.
Qed.

Lemma printableNotNL_scalar (c : rune) : In c printableNotNL -> valid_rune c = true.
Proof.
  assert (Hall : forallb valid_rune printableNotNL = true)
    by (vm_compute; reflexivity).
  rewrite forallb_forall in Hall. apply Hall.
Qed.

Section ScalarOutput.

Context {S : Type} `{Source S}.

Lemma classPick_scalar (rs : list rune) :
  forall i (st : St S) s st',
    classPick rs i st = (Val s, st') -> scalar_string s.
Proof.
  induction rs as [|a|lo hi rest IH] using pairs_ind;
    intros i st s st' Hrun; cbn [classPick] in Hrun.
  - apply ret_val in Hrun. destruct Hrun as [-> _]. constructor.
  - discriminate.
  - destruct (i <=? int32 (hi - lo)).
    + apply ret_val in Hrun. destruct Hrun as [-> _]. apply string_of_rune_scalar.
    + eapply IH. exact Hrun.
Qed.

Section Children.

Variable g : Regexp -> Gen S gostring.

Lemma rangeSub_scalar (subs : list Regexp) :
  Forall (scalar_child g) subs ->
  forall b st out st',
    scalar_string b ->
    rangeSub g subs b st = (Val out, st') -> scalar_string out.
Proof.
  induction 1 as [|c rest Hc _ IH]; intros b st out st' Hb Hrun;
    cbn [rangeSub] in Hrun.
  - apply ret_val in Hrun. destruct Hrun as [-> _]. exact Hb.
  - apply bind_val in Hrun. destruct Hrun as (s & st1 & Hg & Hrest).
    apply (IH (b ++ s) st1 out st'); [|exact Hrest].
    apply Forall_app. split; [exact Hb|]. eapply Hc. exact Hg.
Qed.

Lemma repeatSub_scalar (subs : list Regexp) (n : nat) :
  Forall (scalar_child g) subs ->
  forall b st out st',
    scalar_string b ->
    repeatSub g subs n b st = (Val out, st') -> scalar_string out.
Proof.
  intros Hs. induction n as [|n IH]; intros b st out st' Hb Hrun;
    cbn [repeatSub] in Hrun.
  - apply ret_val in Hrun. destruct Hrun as [-> _]. exact Hb.
  - apply bind_val in Hrun. destruct Hrun as (b' & st1 & Hone & Hrest).
    apply (IH b' st1 out st'); [|exact Hrest].
    eapply rangeSub_scalar; [exact Hs|exact Hb|exact Hone].
Qed.

Lemma subexpression_scalar (subs : list Regexp) (count : Z) :
  Forall (scalar_child g) subs ->
  forall st out st',
    subexpression g subs count st = (Val out, st') -> scalar_string out.
Proof.
  intros Hs st out st' Hrun. apply subexpression_val in Hrun.
  eapply repeatSub_scalar; [exact Hs|constructor|exact Hrun].
Qed.

End Children.

Lemma generateFromRegexp_scalar (x : Xeger S) :
  forall re, scalar_child (generateFromRegexp x) re.
Proof.
  intros re. induction re as [o r mn mx sub IH] using Regexp_nested_ind.
  intros st s st' Hrun. cbn [generateFromRegexp] in Hrun.
  apply bind_val in Hrun. destruct Hrun as ([] & st0 & _ & Hrun).
  destruct o;
    try (apply ret_val in Hrun; destruct Hrun as [-> _]; constructor);
    try (eapply subexpression_scalar; [exact IH|exact Hrun]);
    try (apply bind_val in Hrun; destruct Hrun as (count & st1 & _ & Hrun);
         eapply subexpression_scalar; [exact IH|exact Hrun]).
  - (* OpLiteral *)
    apply ret_val in Hrun. destruct Hrun as [-> _]. apply string_of_runes_scalar.
  - (* OpCharClass *)
    apply bind_val in Hrun. destruct Hrun as (sum & st1 & _ & Hrun).
    apply bind_val in Hrun. destruct Hrun as (n & st2 & _ & Hrun).
    eapply classPick_scalar. exact Hrun.
  - (* OpAnyCharNotNL *)
    apply bind_val in Hrun. destruct Hrun as (i & st1 & _ & Hrun).
    apply bind_val in Hrun. destruct Hrun as (c & st2 & Hc & Hrun).
    apply ret_val in Hrun. destruct Hrun as [-> _].
    constructor; [|constructor].
    apply printableNotNL_scalar. eapply index_val. exact Hc.
  - (* OpAnyChar *)
    apply bind_val in Hrun. destruct Hrun as (i & st1 & _ & Hrun).
    apply bind_val in Hrun. destruct Hrun as (c & st2 & Hc & Hrun).
    apply ret_val in Hrun. destruct Hrun as [-> _].
    constructor; [|constructor].
    apply printable_scalar. eapply index_val. exact Hc.
  - (* OpAlternate *)
    apply bind_val in Hrun. destruct Hrun as (i & st1 & _ & Hrun).
    destruct (i <? 0); [discriminate|].
    destruct (genAt_val _ sub _ _ _ _ Hrun) as (c & Hin & Hg).
    rewrite Forall_forall in IH. eapply IH; [exact Hin|exact Hg].
Qed.

End ScalarOutput.

(** X6.  Whatever the tree (well formed or not), the limit and the values
    drawn, a string [Generate] returns holds Unicode scalar values only:
    no surrogate half and nothing above U+10FFFF, so the string is valid
    UTF-8. *)
Theorem Generate_scalar_values
  (S : Type) `{Source S} (x : Xeger S) (s : gostring) (st' : St S) :
  Generate x = (Val s, st') ->
  scalar_string s.
Proof.
  intros Hg. unfold Generate in Hg.
  eapply generateFromRegexp_scalar. exact Hg.
Qed.

Lemma Generate_scalar_values_witness : scalar_string [RuneError].
Proof.
  apply (Generate_scalar_values scripted
           {| re := re_surrogates; source := Some [5]; limit := 10 |}
           [RuneError] {| rnd := Some []; calls := 1 |}).
  reflexivity.
Defined.

(** ** Trees on which generation returns a string *)

Section Returns.

Context {S : Type} `{Source S}.
Hypothesis contract : Int63_contract S.




Section Children.

Variable g : Regexp -> Gen S gostring.





End Children.




End Returns.



(** ** Trees that draw nothing *)

Section Blind.

Context {S1 S2 : Type} `{Source S1} `{Source S2}.

Lemma blind_ret {A} (a : A) : blind (S1 := S1) (S2 := S2) (ret a) (ret a).
Proof. intros st1 st2. repeat split. Qed.

Lemma blind_raise {A} (p : panic) :
  blind (S1 := S1) (S2 := S2) (A := A) (raise p) (raise p).
Proof. intros st1 st2. repeat split. Qed.

Lemma blind_tick : blind (S1 := S1) (S2 := S2) tick tick.
Proof. intros st1 st2. repeat split. Qed.

Lemma blind_bind {A B} (m1 : Gen S1 A) (m2 : Gen S2 A)
  (k1 : A -> Gen S1 B) (k2 : A -> Gen S2 B) :
  blind m1 m2 -> (forall a, blind (k1 a) (k2 a)) -> blind (bind m1 k1) (bind m2 k2).
Proof.
  intros Hm Hk st1 st2. unfold bind.
  destruct (Hm st1 st2) as (Hv & Hr1 & Hr2).
  destruct (m1 st1) as [[a1|p1] st1']; destruct (m2 st2) as [[a2|p2] st2'];
    cbn [fst snd] in *; try discriminate.
  - inversion Hv; subst a2.
    destruct (Hk a1 st1' st2') as (Hv' & Hr1' & Hr2').
    split; [exact Hv'|]. split; congruence.
  - inversion Hv; subst p2. split; [reflexivity|]. split; assumption.
Qed.

Section Children.

Variables (g1 : Regexp -> Gen S1 gostring) (g2 : Regexp -> Gen S2 gostring).

Lemma blind_rangeSub (subs : list Regexp) :
  Forall (fun c => blind (g1 c) (g2 c)) subs ->
  forall b, blind (rangeSub g1 subs b) (rangeSub g2 subs b).
Proof.
  induction 1 as [|c rest Hc _ IH]; intros b; cbn [rangeSub].
  - apply blind_ret.
  - apply blind_bind; [exact Hc|]. intros s. apply IH.
Qed.

Lemma blind_repeatSub (subs : list Regexp) (n : nat) :
  Forall (fun c => blind (g1 c) (g2 c)) subs ->
  forall b, blind (repeatSub g1 subs n b) (repeatSub g2 subs n b).
Proof.
  intros Hs. induction n as [|n IH]; intros b; cbn [repeatSub].
  - apply blind_ret.
  - apply blind_bind; [apply blind_rangeSub; exact Hs|]. intros b'. apply IH.
Qed.

Lemma blind_subexpression (subs : list Regexp) (count : Z) :
  Forall (fun c => blind (g1 c) (g2 c)) subs ->
  blind (subexpression g1 subs count) (subexpression g2 subs count).
Proof.
  intros Hs. unfold subexpression.
  destruct (int (len subs * count) <? 0);
    [apply blind_raise|apply blind_repeatSub; exact Hs].
Qed.

End Children.

Lemma blind_generateFromRegexp (x1 : Xeger S1) (x2 : Xeger S2) :
  forall re, draw_free re = true ->
    blind (generateFromRegexp x1 re) (generateFromRegexp x2 re).
Proof.
  intros re. induction re as [o r mn mx sub IH] using Regexp_nested_ind.
  intros Hd. cbn [draw_free] in Hd. apply andb_true_iff in Hd.
  destruct Hd as [Ho Hsub].
  assert (Hchildren : Forall (fun c => blind (generateFromRegexp x1 c)
                                         (generateFromRegexp x2 c)) sub).
  { rewrite forallb_forall in Hsub. rewrite Forall_forall in *.
    intros c Hin. apply IH; auto. }
  cbn [generateFromRegexp]. apply blind_bind; [apply blind_tick|]. intros _.
  destruct o; try discriminate; try apply blind_ret;
    apply blind_subexpression; exact Hchildren.
Qed.

End Blind.

(** X7.  A tree made of literals, captures, concatenations and nodes that
    generate the empty string never consults the source: [Generate] gives
    the same result whatever the source (of any kind, nil included) and
    whatever the limit, and leaves the source as it found it. *)
Theorem Generate_draw_free
  (S1 S2 : Type) `{Source S1} `{Source S2}
  (tree : Regexp) (src1 : option S1) (src2 : option S2) (cap1 cap2 : Z) :
  draw_free tree = true ->
  fst (Generate {| re := tree; source := src1; limit := cap1 |})
  = fst (Generate {| re := tree; source := src2; limit := cap2 |})
  /\ rnd (snd (Generate {| re := tree; source := src1; limit := cap1 |})) = src1.
Proof.
  intros Hd. unfold Generate. cbn [re source].
  destruct (blind_generateFromRegexp
              {| re := tree; source := src1; limit := cap1 |}
              {| re := tree; source := src2; limit := cap2 |} tree Hd
              {| rnd := src1; calls := 0 |} {| rnd := src2; calls := 0 |})
    as (Hv & Hr & _).
  split; [exact Hv|exact Hr].
Qed.

Lemma Generate_draw_free_witness :
  fst (Generate {| re := re_b_bot_a; source := Some ([7] : scripted); limit := 3 |})
  = fst (Generate {| re := re_b_bot_a; source := (None : option scripted);
                     limit := 10 |})
  /\ rnd (snd (Generate {| re := re_b_bot_a; source := Some ([7] : scripted);
                           limit := 3 |})) = Some [7].
Proof.
  apply (Generate_draw_free scripted scripted re_b_bot_a (Some [7]) None 3 10).
  reflexivity.
Defined.

(** ** Trees the limit does not reach *)

Section LimitFree.

Context {S : Type} `{Source S}.

Lemma countOf_limit_free (x1 x2 : Xeger S) o mn mx st :
  match o with
  | OpStar | OpPlus => False
  | OpRepeat => mx <> -1
  | _ => True
  end ->
  countOf x1 o mn mx st = countOf x2 o mn mx st.
Proof.
  destruct o; cbn [countOf]; intros Ho; try reflexivity; try contradiction.
  apply Z.eqb_neq in Ho. rewrite Ho. reflexivity.
Qed.

Lemma generateFromRegexp_limit_free (x1 x2 : Xeger S) :
  forall re, limit_free re = true ->
    forall st, generateFromRegexp x1 re st = generateFromRegexp x2 re st.
Proof.
  intros re. induction re as [o r mn mx sub IH] using Regexp_nested_ind.
  intros Hf. cbn [limit_free] in Hf. apply andb_true_iff in Hf.
  destruct Hf as [Ho Hsub].
  assert (Hchildren : Forall (fun c => forall st, generateFromRegexp x1 c st
                                                  = generateFromRegexp x2 c st) sub).
  { rewrite forallb_forall in Hsub. rewrite Forall_forall in *.
    intros c Hin. apply IH; auto. }
  intros st. cbn [generateFromRegexp]. apply bind_ext; [reflexivity|].
  intros _ st1.
  destruct o; try discriminate; try reflexivity;
    try (apply subexpression_ext; exact Hchildren).
  - apply bind_ext; [apply countOf_limit_free; exact I|]. intros c st2.
    apply subexpression_ext. exact Hchildren.
  - apply bind_ext.
    + apply countOf_limit_free. apply negb_true_iff in Ho.
      apply Z.eqb_neq. exact Ho.
    + intros c st2. apply subexpression_ext. exact Hchildren.
  - apply bind_ext; [reflexivity|]. intros i st2.
    destruct (i <? 0); [reflexivity|]. apply genAt_ext. exact Hchildren.
Qed.

End LimitFree.

(** X8.  The limit matters to stars, pluses and repeats without maximum
    only: on a tree without them, [Generate] returns the same result and
    leaves the same state whatever the limit. *)
Theorem Generate_limit_free
  (S : Type) `{Source S} (tree : Regexp) (src : option S) (cap1 cap2 : Z) :
  limit_free tree = true ->
  Generate {| re := tree; source := src; limit := cap1 |}
  = Generate {| re := tree; source := src; limit := cap2 |}.
Proof.
  intros Hf. unfold Generate. cbn [re source].
  apply generateFromRegexp_limit_free. exact Hf.
Qed.

Lemma Generate_limit_free_witness :
  Generate {| re := re_a_2_4; source := Some ([2] : scripted); limit := 1 |}
  = Generate {| re := re_a_2_4; source := Some ([2] : scripted); limit := 1000 |}.
Proof.
  apply (Generate_limit_free scripted re_a_2_4 (Some [2]) 1 1000).
  reflexivity.
Defined.

(** ** What each drawing node does with the value drawn *)

Lemma genAt_nth {S : Type} `{Source S} (g : Regexp -> Gen S gostring)
  (subs : list Regexp) :
  forall i c st, nth_error subs i = Some c -> genAt g subs i st = g c st.
Proof.
  induction subs as [|d rest IH]; intros i c st Hn.
  - destruct i; discriminate.
  - destruct i as [|i]; cbn [genAt nth_error] in *.
    + inversion Hn. reflexivity.
    + apply IH. exact Hn.
Qed.

Lemma nth_error_in_range {A} (l : list A) (i : Z) :
  0 <= i < len l -> exists a, nth_error l (Z.to_nat i) = Some a.
Proof.
  intros Hi. unfold len in Hi.
  destruct (nth_error l (Z.to_nat i)) as [a|] eqn:Hn; [exists a; reflexivity|].
  apply nth_error_None in Hn. lia.
Qed.

Lemma index_nth {S : Type} `{Source S} (t : gostring) (i : Z) (c : rune) (st : St S) :
  0 <= i < len t -> nth_error t (Z.to_nat i) = Some c ->
  index t i st = (Val c, st).
Proof.
  intros Hi Hn. unfold index.
  destruct (Z.ltb_spec i 0); [lia|].
  destruct (Z.leb_spec (len t) i); [lia|]. cbn [orb]. rewrite Hn. reflexivity.
Qed.

(** X9.  An alternation with at least one child generates exactly one
    child: with a draw [v] within the contract, the child at index
    [v mod len(Sub)], walked from the state after the draw; the index is
    never out of range. *)
Theorem alternate_generates_drawn_child
  (S : Type) `{Source S} (x : Xeger S) (r : list rune) (mn mx : Z)
  (sub : list Regexp) (s : S) (n : nat) :
  sub <> [] -> len sub <= max_int ->
  0 <= fst (Int63 s) < 2 ^ 63 ->
  exists c,
    nth_error sub (Z.to_nat (fst (Int63 s) mod len sub)) = Some c
    /\ generateFromRegexp x (MkRegexp OpAlternate r mn mx sub)
         {| rnd := Some s; calls := n |}
       = generateFromRegexp x c
           {| rnd := Some (snd (Int63 s)); calls := Datatypes.S n |}.
Proof.
  intros Hne Hmax Hv.
  assert (Hpos : 0 < len sub).
  { destruct sub; [congruence|]. unfold len. cbn [List.length]. lia. }
  assert (Hi : 0 <= fst (Int63 s) mod len sub < len sub)
    by (apply Z.mod_pos_bound; exact Hpos).
  destruct (nth_error_in_range sub _ Hi) as [c Hc].
  exists c. split; [exact Hc|].
  cbn [generateFromRegexp]. unfold bind at 1. unfold tick. cbn [rnd calls].
  unfold bind.
  rewrite (randInt_mod x (len sub) s (Datatypes.S n) Hpos Hmax Hv).
  destruct (Z.ltb_spec (fst (Int63 s) mod len sub) 0); [lia|].
  apply genAt_nth. exact Hc.
Qed.

Lemma alternate_generates_drawn_child_witness :
  exists c,
    nth_error [literal "cat"; literal "dog"]
      (Z.to_nat (fst (Int63 ([1] : scripted)) mod len [literal "cat"; literal "dog"]))
    = Some c
    /\ generateFromRegexp
         {| re := literal "a"; source := Some ([1] : scripted); limit := 10 |}
         (MkRegexp OpAlternate [] 0 0 [literal "cat"; literal "dog"])
         {| rnd := Some ([1] : scripted); calls := 0 |}
       = generateFromRegexp
           {| re := literal "a"; source := Some ([1] : scripted); limit := 10 |} c
           {| rnd := Some (snd (Int63 ([1] : scripted))); calls := 1 |}.
Proof.
  apply (alternate_generates_drawn_child scripted
           {| re := literal "a"; source := Some [1]; limit := 10 |}
           [] 0 0 [literal "cat"; literal "dog"] [1] 0%nat).
  - discriminate.
  - unfold max_int. cbn. lia.
  - change (fst (Int63 ([1] : scripted))) with 1. lia.
Defined.

Lemma printableNotNL_ascii (c : rune) : In c printableNotNL -> 9 <= c <= 126.
Proof.
  assert (Hall : forallb (fun c => (9 <=? c) && (c <=? 126)) printableNotNL = true)
    by (vm_compute; reflexivity).
  rewrite forallb_forall in Hall. intros Hin. specialize (Hall c Hin).
  apply andb_true_iff in Hall. rewrite !Z.leb_le in Hall. exact Hall.
Qed.

(** X10.  With a draw [v] within the contract, an any-character-but-newline
    node never fails and emits exactly one character, the one at index
    [v mod 99] of the table without newline: an ASCII character between
    tab and tilde that is never the line feed. *)
Theorem anyCharNotNL_emits_table_character
  (S : Type) `{Source S} (x : Xeger S) (r : list rune) (mn mx : Z)
  (sub : list Regexp) (s : S) (n : nat) :
  0 <= fst (Int63 s) < 2 ^ 63 ->
  exists c,
    nth_error printableNotNL (Z.to_nat (fst (Int63 s) mod 99)) = Some c
    /\ c <> 10 /\ 9 <= c <= 126
    /\ generateFromRegexp x (MkRegexp OpAnyCharNotNL r mn mx sub)
         {| rnd := Some s; calls := n |}
       = (Val [c], {| rnd := Some (snd (Int63 s)); calls := Datatypes.S n |}).
Proof.
  intros Hv.
  assert (Hi : 0 <= fst (Int63 s) mod 99 < len printableNotNL)
    by (change (len printableNotNL) with 99; apply Z.mod_pos_bound; lia).
  destruct (nth_error_in_range printableNotNL _ Hi) as [c Hc].
  exists c. split; [exact Hc|].
  pose proof (nth_error_In _ _ Hc) as Hin.
  split; [apply printableNotNL_no_newline; exact Hin|].
  split; [apply printableNotNL_ascii; exact Hin|].
  cbn [generateFromRegexp]. unfold bind at 1. unfold tick. cbn [rnd calls].
  unfold bind at 1.
  change (len printableNotNL) with 99 in *.
  rewrite (randInt_mod x 99 s (Datatypes.S n)) by (try exact Hv; unfold max_int; lia).
  unfold bind. rewrite (index_nth printableNotNL _ c _ Hi Hc). reflexivity.
Qed.

Lemma anyCharNotNL_emits_table_character_witness :
  exists c,
    nth_error printableNotNL (Z.to_nat (fst (Int63 ([100] : scripted)) mod 99)) = Some c
    /\ c <> 10 /\ 9 <= c <= 126
    /\ generateFromRegexp
         {| re := literal "a"; source := Some ([100] : scripted); limit := 10 |}
         (MkRegexp OpAnyCharNotNL [] 0 0 [])
         {| rnd := Some ([100] : scripted); calls := 0 |}
       = (Val [c], {| rnd := Some (snd (Int63 ([100] : scripted))); calls := 1 |}).
Proof.
  apply (anyCharNotNL_emits_table_character scripted
           {| re := literal "a"; source := Some [100]; limit := 10 |}
           [] 0 0 [] [100] 0%nat).
  change (fst (Int63 ([100] : scripted))) with 100. lia.
Defined.

Lemma printable_NoDup : NoDup printable.
Proof.
  let l := eval vm_compute in printable in change printable with l.
  repeat (apply NoDup_cons;
          [cbn [In]; intros Hin;
           repeat (destruct Hin as [Hin|Hin]; [discriminate Hin|]);
           exact Hin|]).
  apply NoDup_nil.
Qed.

Lemma printable_newline_last (i : nat) :
  nth_error printable i = Some 10 -> i = 99%nat.
Proof.
  intros Hn.
  assert (H99 : nth_error printable 99 = Some 10) by reflexivity.
  assert (Hlt : (i < List.length printable)%nat)
    by (apply nth_error_Some; congruence).
  apply (proj1 (NoDup_nth_error printable) printable_NoDup i 99%nat Hlt).
  congruence.
Qed.

(** X11.  With a draw [v] within the contract, an any-character node never
    fails and emits exactly one character, the one at index [v mod 100] of
    the printable table; it is the line feed exactly when that index is
    99, and since the table holds no character twice, two draws emit the
    same character only when their indices agree. *)
Theorem anyChar_emits_table_character
  (S : Type) `{Source S} (x : Xeger S) (r : list rune) (mn mx : Z)
  (sub : list Regexp) (s : S) (n : nat) :
  0 <= fst (Int63 s) < 2 ^ 63 ->
  exists c,
    nth_error printable (Z.to_nat (fst (Int63 s) mod 100)) = Some c
    /\ (c = 10 <-> fst (Int63 s) mod 100 = 99)
    /\ (forall j, (j < 100)%nat -> nth_error printable j = Some c ->
                  j = Z.to_nat (fst (Int63 s) mod 100))
    /\ generateFromRegexp x (MkRegexp OpAnyChar r mn mx sub)
         {| rnd := Some s; calls := n |}
       = (Val [c], {| rnd := Some (snd (Int63 s)); calls := Datatypes.S n |}).
Proof.
  intros Hv.
  assert (Hm : 0 <= fst (Int63 s) mod 100 < 100) by (apply Z.mod_pos_bound; lia).
  assert (Hi : 0 <= fst (Int63 s) mod 100 < len printable)
    by (change (len printable) with 100; exact Hm).
  destruct (nth_error_in_range printable _ Hi) as [c Hc].
  exists c. split; [exact Hc|]. split; [|split].
  - split.
    + intros ->. apply printable_newline_last in Hc. lia.
    + intros He. rewrite He in Hc. change (Z.to_nat 99) with 99%nat in Hc.
      cbv in Hc. congruence.
  - intros j Hj Hnj.
    apply (proj1 (NoDup_nth_error printable) printable_NoDup j _);
      [exact Hj|congruence].
  - cbn [generateFromRegexp]. unfold bind at 1. unfold tick. cbn [rnd calls].
    unfold bind at 1.
    change (len printable) with 100 in *.
    rewrite (randInt_mod x 100 s (Datatypes.S n))
      by (try exact Hv; unfold max_int; lia).
    unfold bind. rewrite (index_nth printable _ c _ Hi Hc). reflexivity.
Qed.

Lemma anyChar_emits_table_character_witness :
  exists c,
    nth_error printable (Z.to_nat (fst (Int63 ([199] : scripted)) mod 100)) = Some c
    /\ (c = 10 <-> fst (Int63 ([199] : scripted)) mod 100 = 99)
    /\ (forall j, (j < 100)%nat -> nth_error printable j = Some c ->
                  j = Z.to_nat (fst (Int63 ([199] : scripted)) mod 100))
    /\ generateFromRegexp
         {| re := literal "a"; source := Some ([199] : scripted); limit := 10 |}
         (MkRegexp OpAnyChar [] 0 0 [])
         {| rnd := Some ([199] : scripted); calls := 0 |}
       = (Val [c], {| rnd := Some (snd (Int63 ([199] : scripted))); calls := 1 |}).
Proof.
  apply (anyChar_emits_table_character scripted
           {| re := literal "a"; source := Some [199]; limit := 10 |}
           [] 0 0 [] [199] 0%nat).
  change (fst (Int63 ([199] : scripted))) with 199. lia.
Defined.

(** X12.  The count of each quantifier as a function of the value [v]
    drawn (within the contract, with a limit in [1, max_int)):
    [v mod (limit + 1)] for a star, [v mod limit + 1] for a plus,
    [v mod 2] for a quest, [Min + v mod (Max - Min + 1)] for a repeat with
    a maximum and [Min + v mod (limit - Min + 1)] for a repeat without,
    when its minimum is at most the limit.  One value is drawn. *)
Theorem countOf_drawn_value
  (S : Type) `{Source S} (x : Xeger S) (o : Op) (mn mx : Z) (s : S) (n : nat) :
  0 <= fst (Int63 s) < 2 ^ 63 ->
  0 < limit x < max_int ->
  quantifier o = true ->
  (o = OpRepeat ->
   0 <= mn /\ ((mx = -1 /\ mn <= limit x) \/ (mn <= mx /\ mx < max_int))) ->
  countOf x o mn mx {| rnd := Some s; calls := n |}
  = (Val (match o with
          | OpStar => fst (Int63 s) mod (limit x + 1)
          | OpPlus => fst (Int63 s) mod limit x + 1
          | OpQuest => fst (Int63 s) mod 2
          | _ => mn + fst (Int63 s) mod ((if mx =? -1 then limit x else mx) - mn + 1)
          end),
     {| rnd := Some (snd (Int63 s)); calls := n |}).
Proof.
  intros Hv Hl Hq Hrep. destruct o; try discriminate; cbn [countOf].
  - rewrite int_id by int_range.
    apply randInt_mod; [lia|lia|exact Hv].
  - unfold bind. rewrite randInt_mod by (try exact Hv; lia).
    pose proof (Z.mod_pos_bound (fst (Int63 s)) (limit x)).
    cbn [ret]. rewrite int_id by int_range. reflexivity.
  - apply randInt_mod; [lia|unfold max_int; lia|exact Hv].
  - destruct (Hrep eq_refl) as [Hmn Hcase].
    set (m := if mx =? -1 then limit x else mx).
    assert (Hm : mn <= m /\ m < max_int).
    { unfold m. destruct Hcase as [[-> Hle]|[Hlo Hhi]].
      - rewrite Z.eqb_refl. lia.
      - destruct (Z.eqb_spec mx (-1)); lia. }
    rewrite (int_id (m - mn)) by int_range.
    rewrite (int_id (m - mn + 1)) by int_range.
    unfold bind. rewrite randInt_mod by (try exact Hv; lia).
    pose proof (Z.mod_pos_bound (fst (Int63 s)) (m - mn + 1)).
    unfold ret. rewrite int_id by int_range.
    f_equal. f_equal. lia.
Qed.

Lemma countOf_drawn_value_witness :
  countOf {| re := re_digits_plus; source := Some ([12] : scripted); limit := 10 |}
    OpPlus 0 0 {| rnd := Some ([12] : scripted); calls := 1 |}
  = (Val (fst (Int63 ([12] : scripted)) mod 10 + 1),
     {| rnd := Some (snd (Int63 ([12] : scripted))); calls := 1 |}).
Proof.
  apply (countOf_drawn_value scripted
           {| re := re_digits_plus; source := Some [12]; limit := 10 |}
           OpPlus 0 0 [12] 1%nat).
  - change (fst (Int63 ([12] : scripted))) with 12. lia.
  - cbn [limit]. unfold max_int. lia.
  - reflexivity.
  - discriminate.
Defined.

(** ** Repetitions compose *)

Section Repetition.

Context {S : Type} `{Source S}.
Variable g : Regexp -> Gen S gostring.





End Repetition.



(** ** The length of the output *)

Lemma len_app {A} (a b : list A) : len (a ++ b) = len a + len b.
Proof. unfold len. rewrite length_app. lia. Qed.

Lemma len_string_of_runes (rs : list rune) : len (string_of_runes rs) = len rs.
Proof.
  induction rs as [|r rs IH]; [reflexivity|].
  cbn [string_of_runes flat_map]. rewrite len_app.
  fold (string_of_runes rs). rewrite IH. unfold len. cbn [List.length string_of_rune]. lia.
Qed.

Lemma sum_member (B : Regexp -> Z) (subs : list Regexp) (c : Regexp) :
  Forall (fun d => 0 <= B d) subs -> In c subs ->
  B c <= fold_right Z.add 0 (map B subs).
Proof.
  induction 1 as [|d rest Hd Hrest IH]; intros Hin; [contradiction|].
  pose proof (sum_nonneg B rest Hrest) as Hsum.
  cbn [map fold_right]. destruct Hin as [->|Hin]; [lia|].
  specialize (IH Hin). lia.
Qed.

Section OutputLength.

Context {S : Type} `{Source S}.
Hypothesis contract : Int63_contract S.

Section Children.

Variable g : Regexp -> Gen S gostring.
Variable B : Regexp -> Z.

Lemma fits_nonneg subs :
  Forall (fits g B) subs -> Forall (fun c => 0 <= B c) subs.
Proof. apply Forall_impl. intros c [Hc _]. exact Hc. Qed.

Lemma rangeSub_len (subs : list Regexp) :
  Forall (fits g B) subs ->
  forall b st out st',
    rangeSub g subs b st = (Val out, st') ->
    len out <= len b + fold_right Z.add 0 (map B subs).
Proof.
  induction 1 as [|c rest [Hc0 Hc] Hrest IH]; intros b st out st' Hrun;
    cbn [rangeSub] in Hrun.
  - apply ret_val in Hrun. destruct Hrun as [-> _]. cbn [map fold_right]. lia.
  - apply bind_val in Hrun. destruct Hrun as (s & st1 & Hg & Hrun).
    specialize (IH _ _ _ _ Hrun). specialize (Hc _ _ _ Hg).
    rewrite len_app in IH. cbn [map fold_right]. lia.
Qed.

Lemma repeatSub_len (subs : list Regexp) (n : nat) :
  Forall (fits g B) subs ->
  forall b st out st',
    repeatSub g subs n b st = (Val out, st') ->
    len out <= len b + Z.of_nat n * fold_right Z.add 0 (map B subs).
Proof.
  intros Hs.
  pose proof (sum_nonneg B subs (fits_nonneg subs Hs)) as Hsum.
  induction n as [|n IH]; intros b st out st' Hrun; cbn [repeatSub] in Hrun.
  - apply ret_val in Hrun. destruct Hrun as [-> _]. lia.
  - apply bind_val in Hrun. destruct Hrun as (b' & st1 & Hone & Hrun).
    specialize (IH _ _ _ _ Hrun).
    pose proof (rangeSub_len subs Hs _ _ _ _ Hone) as Hb'.
    rewrite Nat2Z.inj_succ. nia.
Qed.

Lemma subexpression_len (subs : list Regexp) (count : Z) :
  Forall (fits g B) subs ->
  forall st out st',
    subexpression g subs count st = (Val out, st') ->
    len out <= Z.max 0 count * fold_right Z.add 0 (map B subs).
Proof.
  intros Hs st out st' Hrun. apply subexpression_val in Hrun.
  pose proof (repeatSub_len subs (Z.to_nat count) Hs _ _ _ _ Hrun) as Hlen.
  assert (Hn : Z.of_nat (Z.to_nat count) = Z.max 0 count) by lia.
  rewrite Hn in Hlen. change (len []) with 0 in Hlen. lia.
Qed.

End Children.

Lemma generateFromRegexp_fits (x : Xeger S) :
  0 < limit x <= max_int ->
  forall re, parsed re = true ->
    fits (generateFromRegexp x) (out_bound (limit x)) re.
Proof.
  intros Hl re. induction re as [o r mn mx sub IH] using Regexp_nested_ind.
  intros Hp.
  pose proof (parsed_children o r mn mx sub _ Hp IH) as Hw.
  pose proof (sum_nonneg _ sub (fits_nonneg _ _ sub Hw)) as Hsum.
  assert (Hrep : quantifier o = true -> 0 <= rep_bound (limit x) o mn mx).
  { destruct o; cbn [quantifier rep_bound]; try discriminate; intros _; try lia.
    destruct (parsed_repeat r mn mx sub Hp) as [Hmn [->|Hmx]].
    - rewrite Z.eqb_refl. lia.
    - destruct (Z.eqb_spec mx (-1)); lia. }
  split.
  - cbn [out_bound].
    set (below := fold_right Z.add 0 (map (out_bound (limit x)) sub)) in *.
    destruct o; try lia; try (unfold len; lia);
      specialize (Hrep eq_refl); nia.
  - intros st s st' Hrun. cbn [generateFromRegexp] in Hrun.
    apply bind_val in Hrun. destruct Hrun as ([] & st0 & _ & Hrun).
    cbn [out_bound].
    set (below := fold_right Z.add 0 (map (out_bound (limit x)) sub)) in *.
    assert (Hquant : quantifier o = true ->
              bind (countOf x o mn mx)
                (fun count => subexpression (generateFromRegexp x) sub count) st0
              = (Val s, st') ->
              len s <= rep_bound (limit x) o mn mx * below).
    { intros Hq Hb. specialize (Hrep Hq).
      apply bind_val in Hb. destruct Hb as (count & st1 & Hcount & Hsub).
      assert (Hcb : count <= rep_bound (limit x) o mn mx).
      { apply (countOf_rep_bound contract x o mn mx st0 count st1 Hl); try assumption.
        intros ->. exact (parsed_repeat r mn mx sub Hp). }
      pose proof (subexpression_len _ _ sub count Hw _ _ _ Hsub) as Hlen.
      fold below in Hlen. nia. }
    assert (Hone : subexpression (generateFromRegexp x) sub 1 st0 = (Val s, st') ->
                   len s <= below).
    { intros Hsub.
      pose proof (subexpression_len _ _ sub 1 Hw _ _ _ Hsub) as Hlen.
      fold below in Hlen. lia. }
    destruct o;
      try (apply ret_val in Hrun; destruct Hrun as [-> _];
           change (len []) with 0; lia);
      try (apply Hone; exact Hrun);
      try (apply Hquant; [reflexivity|exact Hrun]).
    + (* OpLiteral *)
      apply ret_val in Hrun. destruct Hrun as [-> _].
      rewrite len_string_of_runes. lia.
    + (* OpCharClass *)
      apply bind_val in Hrun. destruct Hrun as (sum & st1 & _ & Hrun).
      apply bind_val in Hrun. destruct Hrun as (n & st2 & _ & Hrun).
      assert (Hpick : forall rs i (sa : St S) t sb,
                classPick rs i sa = (Val t, sb) -> len t <= 1).
      { induction rs as [|a|lo hi rest IHrs] using pairs_ind;
          intros i sa t sb Hpk; cbn [classPick] in Hpk.
        - apply ret_val in Hpk. destruct Hpk as [-> _]. cbv. discriminate.
        - discriminate.
        - destruct (i <=? int32 (hi - lo)).
          + apply ret_val in Hpk. destruct Hpk as [-> _]. cbv. discriminate.
          + eapply IHrs. exact Hpk. }
      eapply Hpick. exact Hrun.
    + (* OpAnyCharNotNL *)
      apply bind_val in Hrun. destruct Hrun as (i & st1 & _ & Hrun).
      apply bind_val in Hrun. destruct Hrun as (c & st2 & _ & Hrun).
      apply ret_val in Hrun. destruct Hrun as [-> _]. cbv. discriminate.
    + (* OpAnyChar *)
      apply bind_val in Hrun. destruct Hrun as (i & st1 & _ & Hrun).
      apply bind_val in Hrun. destruct Hrun as (c & st2 & _ & Hrun).
      apply ret_val in Hrun. destruct Hrun as [-> _]. cbv. discriminate.
    + (* OpAlternate *)
      apply bind_val in Hrun. destruct Hrun as (i & st1 & _ & Hrun).
      destruct (i <? 0); [discriminate|].
      destruct (genAt_val _ sub _ _ _ _ Hrun) as (c & Hin & Hg).
      pose proof (sum_member _ sub c (fits_nonneg _ _ sub Hw) Hin) as Hle.
      fold below in Hle.
      rewrite Forall_forall in Hw. destruct (Hw c Hin) as [_ Hc].
      specialize (Hc _ _ _ Hg). lia.
Qed.

End OutputLength.

(** X14.  On a tree of the parser, with a limit in [1, max_int] and a
    source within its contract, a string [Generate] returns has at most
    [out_bound] code points: a bound fixed by the tree and the limit (the
    runes of a literal, one per class or any-character node, and the
    largest count of each quantifier times the bound of its child). *)
Theorem Generate_length_bounded
  (S : Type) `{Source S} (x : Xeger S) (s : gostring) (st' : St S) :
  Int63_contract S ->
  0 < limit x <= max_int ->
  parsed (re x) = true ->
  Generate x = (Val s, st') ->
  len s <= out_bound (limit x) (re x).
Proof.
  intros Hc Hl Hp Hg. unfold Generate in Hg.
  destruct (generateFromRegexp_fits Hc x Hl (re x) Hp) as [_ Hfit].
  eapply Hfit. exact Hg.
Qed.

Lemma Generate_length_bounded_witness :
  len (codes "427") <= out_bound 10 re_digits_plus.
Proof.
  apply (Generate_length_bounded scripted
           {| re := re_digits_plus; source := Some [2; 4; 2; 7]; limit := 10 |}
           (codes "427") {| rnd := Some []; calls := 4 |}).
  - exact scripted_contract.
  - cbn [limit]. unfold max_int. lia.
  - reflexivity.
  - reflexivity.
Defined.

(** ** A source outside its contract *)

(** X15.  The contract of [Source] matters: when [Int63] returns a negative
    value [v], the remainder [v % limit] is negative too, and a plus node
    does not repeat its child at least once: with a remainder of -1 the
    count is 0 and the node returns the empty string without generating
    the child, and with a remainder below -1 the count is negative and
    [generateFromSubexpression] panics in [make]. *)
Theorem plus_on_negative_draw
  (S : Type) `{Source S} (x : Xeger S) (r : list rune) (mn mx : Z)
  (c : Regexp) (s : S) (n : nat) :
  0 < limit x <= max_int ->
  min_int <= fst (Int63 s) < 0 ->
  (Z.rem (fst (Int63 s)) (limit x) = -1 ->
   generateFromRegexp x (MkRegexp OpPlus r mn mx [c])
     {| rnd := Some s; calls := n |}
   = (Val [], {| rnd := Some (snd (Int63 s)); calls := Datatypes.S n |}))
  /\ (Z.rem (fst (Int63 s)) (limit x) < -1 ->
      generateFromRegexp x (MkRegexp OpPlus r mn mx [c])
        {| rnd := Some s; calls := n |}
      = (Panic MakeSliceCap,
         {| rnd := Some (snd (Int63 s)); calls := Datatypes.S n |})).
Proof.
  intros Hl Hv.
  assert (Hi : is_int (limit x)) by int_range.
  assert (Hq : - limit x < Z.rem (fst (Int63 s)) (limit x) <= 0).
  { apply Z.rem_bound_pos_neg; lia. }
  assert (Hrun : generateFromRegexp x (MkRegexp OpPlus r mn mx [c])
                   {| rnd := Some s; calls := n |}
                 = subexpression (generateFromRegexp x) [c]
                     (Z.rem (fst (Int63 s)) (limit x) + 1)
                     {| rnd := Some (snd (Int63 s)); calls := Datatypes.S n |}).
  { cbn [generateFromRegexp countOf]. unfold bind at 1. unfold tick.
    cbn [rnd calls]. unfold bind.
    rewrite randInt_eq by (rewrite (int64_id _ Hi); lia).
    rewrite (int64_id _ Hi). rewrite (int_id (Z.rem _ _)) by int_range.
    unfold ret. rewrite int_id by int_range. reflexivity. }
  rewrite Hrun. unfold subexpression.
  change (len [c]) with 1. rewrite Z.mul_1_l.
  rewrite int_id by int_range.
  split; intros Hcase.
  - rewrite Hcase. reflexivity.
  - destruct (Z.ltb_spec (Z.rem (fst (Int63 s)) (limit x) + 1) 0); [|lia].
    reflexivity.
Qed.

Lemma plus_on_negative_draw_witness :
  (Z.rem (fst (Int63 (Unchecked [-5]))) 10 = -1 ->
   generateFromRegexp {| re := re_digits_plus; source := Some (Unchecked [-5]);
                         limit := 10 |}
     (MkRegexp OpPlus [] 0 0 [literal "a"])
     {| rnd := Some (Unchecked [-5]); calls := 0 |}
   = (Val [], {| rnd := Some (snd (Int63 (Unchecked [-5]))); calls := 1 |}))
  /\ (Z.rem (fst (Int63 (Unchecked [-5]))) 10 < -1 ->
      generateFromRegexp {| re := re_digits_plus; source := Some (Unchecked [-5]);
                            limit := 10 |}
        (MkRegexp OpPlus [] 0 0 [literal "a"])
        {| rnd := Some (Unchecked [-5]); calls := 0 |}
      = (Panic MakeSliceCap,
         {| rnd := Some (snd (Int63 (Unchecked [-5]))); calls := 1 |})).
Proof.
  apply (plus_on_negative_draw unchecked
           {| re := re_digits_plus; source := Some (Unchecked [-5]); limit := 10 |}
           [] 0 0 (literal "a") (Unchecked [-5]) 0%nat).
  - cbn [limit]. unfold max_int. lia.
  - change (fst (Int63 (Unchecked [-5]))) with (-5). unfold min_int. lia.
Defined.

(** ** The only panic of a parsed tree *)

Section Runs.

Context {S : Type} `{Source S}.
Hypothesis contract : Int63_contract S.






Section Children.

Variable g : Regexp -> Gen S gostring.





End Children.



End Runs.


